(** * LazyInitializationProvider: a shallow embedding and its properties

    Source: packages/hardhat-core/src/internal/core/providers/lazy-initialization.ts

    The class wraps an asynchronous provider factory.  It owns a private
    Node [EventEmitter] ([_emitter]) that receives every event-emitter call
    made while [provider] is still [undefined]; the first JSON-RPC call
    ([request], [send], [sendAsync]) runs [_initProvider], which awaits the
    factory, stores the provider and copies the recorded listeners over.

    The class is asynchronous, single threaded code.  It is modelled as a
    transition system whose actions are the public calls and the resumptions
    of suspended [async] functions; the scheduler (the JavaScript job queue
    together with the factory's promise) chooses the order of resumptions.

    Node's [events] module is not part of the repository.  The part of it the
    class relies on is embedded in [Module Events], following
    lib/events.js.

    What the model takes for granted:
    - the providers the factory resolves to are Node EventEmitters;
    - the callers' listeners and callbacks are opaque: a run of one is
      recorded in a log, and it does not call back into the instance;
    - the listeners the callers pass are their own functions, not the once
      wrappers that [rawListeners] hands out;
    - event names are strings; an [addListener] or [removeListener] that
      would make Node emit 'newListener' or 'removeListener' is outside the
      model, and so is the warning about too many listeners;
    - the argument of [setMaxListeners] is an integer. *)

From stdpp Require Import base option list strings gmap sorting.
From Stdlib Require Import ZArith Lia Ascii.

Open Scope Z_scope.
Open Scope nat_scope.
Open Scope string_scope.
Open Scope list_scope.

(** ** Values *)

(** Event names are strings.  (Symbols are outside the model.) *)
Definition event := string.

(** The two kinds of emitter objects the class talks to: its own [_emitter]
    and the providers produced by the factory, which live in a store and are
    named by their index. *)
Inductive emitter_ref :=
  | Buffer
  | Resource (r : nat).

(** Functions that can sit in a listener list.  [Callback c] is the caller's
    function number [c].  [OnceWrapper w target type listener] is the bound
    [onceWrapper] that [_onceWrap(target, type, listener)] creates: [w] is
    the identity of the wrapper object, the other three are the immutable
    fields of its state; the mutable field [fired] is kept in the heap. *)
Inductive fn :=
  | Callback (c : nat)
  | OnceWrapper (w : nat) (target : emitter_ref) (type : event) (listener : nat).

#[global] Instance emitter_ref_eq_dec : EqDecision emitter_ref.
Proof. solve_decision. Defined.

#[global] Instance fn_eq_dec : EqDecision fn.
Proof. solve_decision. Defined.

(** Exceptions and rejections. *)
Inductive exn :=
  | RangeError                  (* setMaxListeners(n), n < 0 *)
  | Unhandled (args : nat)      (* emit('error', args) without a listener *)
  | TypeError                   (* a method call on [undefined] *)
  | FactoryFailure (e : nat).   (* the factory's promise rejected with [e] *)

(** What a call on an emitter hands back. *)
Inductive value :=
  | VThis
  | VBool (b : bool)
  | VNum (n : Z)
  | VFns (fs : list fn)
  | VNames (evs : list event).

Inductive outcome :=
  | Returned (v : value)
  | Thrown (x : exn).

#[global] Instance exn_eq_dec : EqDecision exn.
Proof. solve_decision. Defined.

(** ** Node's EventEmitter *)

Module Events.

(** [_events] maps an event name to its listeners.  Node keeps a bare
    function for one listener and an array for several; the model keeps the
    list, which is never empty for a key that is present.  The association
    list is in insertion order of the keys.  [_maxListeners] is [undefined]
    until [setMaxListeners] is called. *)
Record EventEmitter := mkEmitter {
  _events : list (event * list fn);
  _maxListeners : option Z
}.

(** [new EventEmitter()] *)
Definition create : EventEmitter := mkEmitter [] None.

(** [EventEmitter.defaultMaxListeners] *)
Definition defaultMaxListeners : Z := 10.

Fixpoint lookup_event (type : event) (evs : list (event * list fn)) : option (list fn) :=
  match evs with
  | [] => None
  | (k, fs) :: rest => if decide (k = type) then Some fs else lookup_event type rest
  end.

(** [events[type]], read as a list: [] when the key is absent. *)
Definition handlers (type : event) (E : EventEmitter) : list fn :=
  default [] (lookup_event type (_events E)).

Definition has_listeners (type : event) (E : EventEmitter) : bool :=
  bool_decide (handlers type E ≠ []).

(** [delete events[type]] *)
Definition delete_event (type : event) (evs : list (event * list fn)) : list (event * list fn) :=
  filter (λ kv, kv.1 ≠ type) evs.

Fixpoint replace_event (type : event) (fs : list fn) (evs : list (event * list fn))
  : list (event * list fn) :=
  match evs with
  | [] => [(type, fs)]
  | (k, old) :: rest =>
      if decide (k = type) then (k, fs) :: rest
      else (k, old) :: replace_event type fs rest
  end.

(** [events[type] = fs], and [delete events[type]] when no listener is
    left.  A new key goes to the end, an existing key keeps its place. *)
Definition store (type : event) (fs : list fn) (E : EventEmitter) : EventEmitter :=
  mkEmitter
    (match fs with
     | [] => delete_event type (_events E)
     | _ => replace_event type fs (_events E)
     end)
    (_maxListeners E).

(** [_addListener(target, type, listener, prepend)].  When the emitter has
    a listener for 'newListener', Node first emits that event; such calls
    are outside the model ([None]).  The warning printed when the list
    outgrows the max-listeners value is not modelled. *)
Definition _addListener (E : EventEmitter) (type : event) (listener : fn) (prepend : bool)
  : option EventEmitter :=
  if has_listeners "newListener" E then None
  else
    let existing := handlers type E in
    Some (store type (if prepend then listener :: existing else existing ++ [listener]) E).

(** [list[i] === listener || list[i].listener === listener] *)
Definition matches (listener : fn) (f : fn) : bool :=
  bool_decide (f = listener) ||
  match f with
  | OnceWrapper _ _ _ c => bool_decide (listener = Callback c)
  | Callback _ => false
  end.

(** Removes the last element that matches; [None] when none does.  Node
    scans [for (i = list.length - 1; i >= 0; i--)] and stops at the first
    hit. *)
Fixpoint remove_last (listener : fn) (fs : list fn) : option (list fn) :=
  match fs with
  | [] => None
  | f :: rest =>
      match remove_last listener rest with
      | Some rest' => Some (f :: rest')
      | None => if matches listener f then Some rest else None
      end
  end.

(** [removeListener(type, listener)].  When something was removed and the
    emitter still has a listener for 'removeListener', Node emits that
    event; such calls are outside the model ([None]). *)
Definition removeListener (E : EventEmitter) (type : event) (listener : fn)
  : option EventEmitter :=
  match remove_last listener (handlers type E) with
  | None => Some E
  | Some fs =>
      let E' := store type fs E in
      if has_listeners "removeListener" E' then None else Some E'
  end.

(** [removeAllListeners(type?)], on an emitter without 'removeListener'
    listeners (with them Node removes one by one and emits; [None]).
    [type = None] is the call without argument. *)
Definition removeAllListeners (E : EventEmitter) (type : option event) : option EventEmitter :=
  if has_listeners "removeListener" E then None
  else
    match type with
    | None => Some (mkEmitter [] (_maxListeners E))
    | Some t => Some (store t [] E)
    end.

(** [setMaxListeners(n)] throws a RangeError for a negative [n]. *)
Definition setMaxListeners (E : EventEmitter) (n : Z) : EventEmitter + exn :=
  if decide (n < 0)%Z then inr RangeError
  else inl (mkEmitter (_events E) (Some n)).

Definition getMaxListeners (E : EventEmitter) : Z :=
  default defaultMaxListeners (_maxListeners E).

Definition rawListeners (E : EventEmitter) (type : event) : list fn :=
  handlers type E.

(** [arr[i].listener || arr[i]] *)
Definition unwrap (f : fn) : fn :=
  match f with
  | OnceWrapper _ _ _ c => Callback c
  | Callback c => Callback c
  end.

Definition listeners (E : EventEmitter) (type : event) : list fn :=
  unwrap <$> handlers type E.

Definition listenerCount (E : EventEmitter) (type : event) : nat :=
  length (handlers type E).

(** [eventNames()] is [Reflect.ownKeys(this._events)]: the keys that are
    array indices ("0", "1", ..., "4294967294") in ascending numeric order,
    then the other keys in insertion order. *)
Definition digit (a : ascii) : option N :=
  let n := N_of_ascii a in
  if decide (48 ≤ n ∧ n ≤ 57)%N then Some (n - 48)%N else None.

Fixpoint digits (acc : N) (s : string) : option N :=
  match s with
  | EmptyString => Some acc
  | String a rest => d ← digit a; digits (acc * 10 + d)%N rest
  end.

Definition array_index (s : string) : option N :=
  match s with
  | EmptyString => None
  | String "0"%char EmptyString => Some 0%N
  | String "0"%char _ => None
  | _ =>
      n ← digits 0%N s;
      if decide (n < 4294967295)%N then Some n else None
  end.

Definition index_le (a b : event) : Prop :=
  (default 0%N (array_index a) ≤ default 0%N (array_index b))%N.

#[global] Instance index_le_dec : RelDecision index_le.
Proof. intros a b. unfold index_le. apply _. Defined.

Definition own_keys (ks : list event) : list event :=
  merge_sort index_le (filter (λ k, is_Some (array_index k)) ks)
  ++ filter (λ k, ¬ is_Some (array_index k)) ks.

Definition eventNames (E : EventEmitter) : list event :=
  own_keys ((_events E).*1).

End Events.

Import Events.

(** ** The heap: emitters, wrapper state and the observable log *)

(** The three JSON-RPC entry points with their arguments. *)
Inductive remote_call :=
  | Request (args : nat)
  | Send (method : string) (params : nat)
  | SendAsync (payload : nat) (callback : nat).

(** What the environment can observe. *)
Inductive entry :=
  | Invoked (c : nat) (via : option nat) (args : nat)
      (* the caller's listener [c] ran; [via = Some w] when a once wrapper
         [w] ran it, [None] when [emit] called it directly *)
  | Forwarded (r : nat) (c : remote_call)
      (* [provider.request / send / sendAsync] was called on resource [r] *)
  | Rejected (t : nat) (x : exn)
      (* the promise of call number [t] rejected with [x] *)
  | CallbackInvoked (cb : nat) (err : exn).
      (* [callback(err, null)] *)

Record heap := mkHeap {
  _emitter : EventEmitter;         (* the object behind [this._emitter] *)
  resources : list EventEmitter;   (* the providers the factory resolves to *)
  fired : gset nat;                (* wrappers whose [fired] field is true *)
  wrappers : nat;                  (* the number of the next once wrapper *)
  log : list entry
}.

Definition deref (h : heap) (e : emitter_ref) : option EventEmitter :=
  match e with
  | Buffer => Some (_emitter h)
  | Resource r => resources h !! r
  end.

Definition assign (h : heap) (e : emitter_ref) (E : EventEmitter) : heap :=
  match e with
  | Buffer => mkHeap E (resources h) (fired h) (wrappers h) (log h)
  | Resource r => mkHeap (_emitter h) (<[r := E]> (resources h)) (fired h) (wrappers h) (log h)
  end.

Definition record (h : heap) (x : entry) : heap :=
  mkHeap (_emitter h) (resources h) (fired h) (wrappers h) (log h ++ [x]).

Definition set_fired (h : heap) (w : nat) : heap :=
  mkHeap (_emitter h) (resources h) ({[w]} ∪ fired h) (wrappers h) (log h).

Definition fresh_wrapper (h : heap) : heap :=
  mkHeap (_emitter h) (resources h) (fired h) (S (wrappers h)) (log h).

(** [e.on(type, f)] and [e.prependListener(type, f)] for any function [f]. *)
Definition add_at (h : heap) (e : emitter_ref) (type : event) (f : fn) (prepend : bool)
  : option heap :=
  E ← deref h e;
  E' ← Events._addListener E type f prepend;
  Some (assign h e E').

(** [e.removeListener(type, f)] *)
Definition remove_at (h : heap) (e : emitter_ref) (type : event) (f : fn) : option heap :=
  E ← deref h e;
  E' ← Events.removeListener E type f;
  Some (assign h e E').

(** Calling a listener.  A caller's function is opaque: its run is recorded.
    The once wrapper is Node's
    [if (!this.fired) { this.target.removeListener(this.type, this.wrapFn);
       this.fired = true; return this.listener.apply(this.target, args) }]. *)
Definition invoke (args : nat) (h : heap) (f : fn) : option heap :=
  match f with
  | Callback c => Some (record h (Invoked c None args))
  | OnceWrapper w target type c =>
      if decide (w ∈ fired h) then Some h
      else
        h' ← remove_at h target type f;
        Some (record (set_fired h' w) (Invoked c (Some w) args))
  end.

Fixpoint invoke_all (args : nat) (h : heap) (fs : list fn) : option heap :=
  match fs with
  | [] => Some h
  | f :: rest => h' ← invoke args h f; invoke_all args h' rest
  end.

(** [e.emit(type, args)]: throws when [type] is 'error' and nobody listens;
    otherwise calls a copy of the listener list in order and reports whether
    there was a listener. *)
Definition emit_at (h : heap) (e : emitter_ref) (type : event) (args : nat)
  : option (heap * outcome) :=
  E ← deref h e;
  match handlers type E with
  | [] =>
      if decide (type = "error") then Some (h, Thrown (Unhandled args))
      else Some (h, Returned (VBool false))
  | fs => h' ← invoke_all args h fs; Some (h', Returned (VBool true))
  end.

(** The EventEmitter methods of the class with their arguments; a listener
    is a caller's function. *)
Inductive emitter_call :=
  | AddListener (type : event) (listener : nat)
  | On (type : event) (listener : nat)
  | Once (type : event) (listener : nat)
  | PrependListener (type : event) (listener : nat)
  | PrependOnceListener (type : event) (listener : nat)
  | RemoveListener (type : event) (listener : nat)
  | Off (type : event) (listener : nat)
  | RemoveAllListeners (event : option event)
  | SetMaxListeners (n : Z)
  | GetMaxListeners
  | Listeners (type : event)
  | RawListeners (type : event)
  | Emit (type : event) (args : nat)
  | EventNames
  | ListenerCount (type : event).

(** [once] and [prependOnceListener]: [this.on(type, _onceWrap(this, type, listener))] *)
Definition add_once (h : heap) (e : emitter_ref) (type : event) (listener : nat) (prepend : bool)
  : option heap :=
  add_at (fresh_wrapper h) e type (OnceWrapper (wrappers h) e type listener) prepend.

Definition this (r : option heap) : option (heap * outcome) :=
  h ← r; Some (h, Returned VThis).

Definition read (h : heap) (e : emitter_ref) (f : EventEmitter → value) : option (heap * outcome) :=
  E ← deref h e; Some (h, Returned (f E)).

(** The call [e.m(...)] as the class's method [m] makes it on the emitter
    [e] it has selected.  [removeAllListeners(event?)] forwards
    [e.removeAllListeners(event)], one argument also when [event] is
    undefined; Node, which tests [arguments.length === 0] for "all events",
    then reads [events[undefined]], the listeners of the name 'undefined'. *)
Definition exec (h : heap) (e : emitter_ref) (m : emitter_call) : option (heap * outcome) :=
  match m with
  | AddListener type l | On type l => this (add_at h e type (Callback l) false)
  | PrependListener type l => this (add_at h e type (Callback l) true)
  | Once type l => this (add_once h e type l false)
  | PrependOnceListener type l => this (add_once h e type l true)
  | RemoveListener type l | Off type l => this (remove_at h e type (Callback l))
  | RemoveAllListeners event =>
      this (E ← deref h e;
            E' ← Events.removeAllListeners E (Some (default "undefined" event));
            Some (assign h e E'))
  | SetMaxListeners n =>
      E ← deref h e;
      match Events.setMaxListeners E n with
      | inl E' => Some (assign h e E', Returned VThis)
      | inr x => Some (h, Thrown x)
      end
  | GetMaxListeners => read h e (λ E, VNum (Events.getMaxListeners E))
  | Listeners type => read h e (λ E, VFns (Events.listeners E type))
  | RawListeners type => read h e (λ E, VFns (Events.rawListeners E type))
  | Emit type args => emit_at h e type args
  | EventNames => read h e (λ E, VNames (Events.eventNames E))
  | ListenerCount type => read h e (λ E, VNum (Z.of_nat (Events.listenerCount E type)))
  end.

(** ** The class *)

(** Where a suspended JSON-RPC call stands.  [AwaitingFactory]: inside
    [_initProvider], at [await this._providerFactory()].  [AwaitingInit x]:
    [_initProvider] has finished ([x = None]) or rejected with [x], and the
    caller's continuation ([await this._initProvider()] in [request] and
    [send], the [then] handlers in [sendAsync]) is queued. *)
Inductive stage :=
  | AwaitingFactory
  | AwaitingInit (failure : option exn).

(** An instance: the field [provider] (an index into the heap's resources),
    the heap holding [_emitter], and the bookkeeping of the asynchronous
    calls.  [factoryCalls] counts the invocations of [_providerFactory]. *)
Record LazyInitializationProvider := mkProvider {
  provider : option nat;
  mem : heap;
  factoryCalls : nat;
  tasks : gmap nat (remote_call * stage);
  spawned : nat
}.

Definition with_mem (p : LazyInitializationProvider) (h : heap) : LazyInitializationProvider :=
  mkProvider (provider p) h (factoryCalls p) (tasks p) (spawned p).

(** The providers may come with once listeners of their own; the wrappers
    created later are numbered above theirs. *)
Definition after (f : fn) : nat :=
  match f with
  | OnceWrapper w _ _ _ => S w
  | Callback _ => 0
  end.

Definition first_free (rs : list EventEmitter) : nat :=
  max_list (after <$> (rs ≫= λ E, _events E ≫= snd)).

(** [new LazyInitializationProvider(factory)], in a world where the factory
    can resolve to the emitters [rs]. *)
Definition init (rs : list EventEmitter) : LazyInitializationProvider :=
  mkProvider None (mkHeap create rs ∅ (first_free rs) []) 0 ∅ 0.

(** [this.provider === undefined ? this._emitter : this.provider] *)
Definition _getEmitter (p : LazyInitializationProvider) : emitter_ref :=
  match provider p with
  | None => Buffer
  | Some r => Resource r
  end.

(** Every EventEmitter method of the class is
    [this._getEmitter().m(...)], handing back [this] or the emitter's
    answer. *)
Definition via_emitter (p : LazyInitializationProvider) (m : emitter_call)
  : option (LazyInitializationProvider * outcome) :=
  '(h, out) ← exec (mem p) (_getEmitter p) m;
  Some (with_mem p h, out).

Definition addListener p event listener := via_emitter p (AddListener event listener).
Definition on p event listener := via_emitter p (On event listener).
Definition once p event listener := via_emitter p (Once event listener).
Definition prependListener p event listener := via_emitter p (PrependListener event listener).
Definition prependOnceListener p event listener :=
  via_emitter p (PrependOnceListener event listener).
Definition removeListener p event listener := via_emitter p (RemoveListener event listener).
Definition off p event listener := via_emitter p (Off event listener).
Definition removeAllListeners p event := via_emitter p (RemoveAllListeners event).
Definition setMaxListeners p n := via_emitter p (SetMaxListeners n).
Definition getMaxListeners p := via_emitter p GetMaxListeners.
Definition listeners p event := via_emitter p (Listeners event).
Definition rawListeners p event := via_emitter p (RawListeners event).
Definition emit p event args := via_emitter p (Emit event args).
Definition eventNames p := via_emitter p EventNames.
Definition listenerCount p type := via_emitter p (ListenerCount type).

(** [_initProvider], up to its first suspension: with [provider] undefined
    it invokes the factory and awaits; otherwise it returns at once. *)
Definition _initProvider_enter (p : LazyInitializationProvider)
  : LazyInitializationProvider * stage :=
  match provider p with
  | None =>
      (mkProvider (provider p) (mem p) (S (factoryCalls p)) (tasks p) (spawned p),
       AwaitingFactory)
  | Some _ => (p, AwaitingInit None)
  end.

(** The inner loop of [_initProvider]:
    [for (const listener of listeners) {
       this.provider.on(event, listener);
       this._emitter.removeListener(event, listener); }] *)
Fixpoint copy_listeners (h : heap) (r : nat) (event : event) (listeners : list fn)
  : option heap :=
  match listeners with
  | [] => Some h
  | listener :: rest =>
      h1 ← add_at h (Resource r) event listener false;
      h2 ← remove_at h1 Buffer event listener;
      copy_listeners h2 r event rest
  end.

(** The outer loop:
    [for (const event of recordedEvents) {
       const listeners = this._emitter.rawListeners(event); ... }] *)
Fixpoint copy_events (h : heap) (r : nat) (recordedEvents : list event) : option heap :=
  match recordedEvents with
  | [] => Some h
  | event :: rest =>
      h' ← copy_listeners h r event (Events.rawListeners (_emitter h) event);
      copy_events h' r rest
  end.

(** [_initProvider] from the point where the awaited factory promise
    settles.  [inr e]: the await throws, the function rejects and nothing
    was written.  [inl r]: [this.provider = r], the listeners are copied and
    the max-listeners value is written to the provider. *)
Definition _initProvider_resume (p : LazyInitializationProvider) (result : nat + nat)
  : option (LazyInitializationProvider * option exn) :=
  match result with
  | inr e => Some (p, Some (FactoryFailure e))
  | inl r =>
      _ ← resources (mem p) !! r;
      let recordedEvents := Events.eventNames (_emitter (mem p)) in
      h ← copy_events (mem p) r recordedEvents;
      R ← resources h !! r;
      let p' := mkProvider (Some r) h (factoryCalls p) (tasks p) (spawned p) in
      match Events.setMaxListeners R (Events.getMaxListeners (_emitter h)) with
      | inl R' => Some (with_mem p' (assign h (Resource r) R'), None)
      | inr x => Some (p', Some x)
      end
  end.

(** [request], [send] and [sendAsync] up to their suspension: each starts
    [_initProvider()] and leaves a continuation behind. *)
Definition start (p : LazyInitializationProvider) (c : remote_call)
  : LazyInitializationProvider :=
  let '(p', st) := _initProvider_enter p in
  mkProvider (provider p') (mem p') (factoryCalls p')
             (<[spawned p' := (c, st)]> (tasks p')) (S (spawned p')).

Definition request p args := start p (Request args).
Definition send p method params := start p (Send method params).
Definition sendAsync p payload callback := start p (SendAsync payload callback).

(** The continuation of a JSON-RPC call once [_initProvider()] has settled.
    [request]/[send]: [return this.provider!.request(args)], or the rejection
    propagates.  [sendAsync]: [this.provider!.sendAsync(payload, callback)],
    or [callback(e, null)]. *)
Definition finish (p : LazyInitializationProvider) (t : nat) (c : remote_call)
  (failure : option exn) : entry :=
  match failure, c with
  | Some x, SendAsync _ cb => CallbackInvoked cb x
  | Some x, _ => Rejected t x
  | None, _ =>
      match provider p with
      | Some r => Forwarded r c
      | None => Rejected t TypeError
      end
  end.

(** ** The transition system *)

Inductive action :=
  | Call (c : remote_call)
      (* the caller invokes request, send or sendAsync *)
  | Emitter (m : emitter_call)
      (* the caller invokes an EventEmitter method of the instance *)
  | FactorySettles (t : nat) (result : nat + nat)
      (* the factory promise awaited by call [t] resolves to resource
         [inl r] or rejects with [inr e] *)
  | Continue (t : nat)
      (* the job queue runs the continuation of call [t] *)
  | ResourceEmits (r : nat) (type : event) (args : nat).
      (* resource [r] emits an event of its own accord *)

Definition step (p : LazyInitializationProvider) (a : action)
  : option LazyInitializationProvider :=
  match a with
  | Call c => Some (start p c)
  | Emitter m => fst <$> via_emitter p m
  | FactorySettles t result =>
      match tasks p !! t with
      | Some (c, AwaitingFactory) =>
          '(p', failure) ← _initProvider_resume p result;
          Some (mkProvider (provider p') (mem p') (factoryCalls p')
                           (<[t := (c, AwaitingInit failure)]> (tasks p')) (spawned p'))
      | _ => None
      end
  | Continue t =>
      match tasks p !! t with
      | Some (c, AwaitingInit failure) =>
          Some (mkProvider (provider p) (record (mem p) (finish p t c failure))
                           (factoryCalls p) (delete t (tasks p)) (spawned p))
      | _ => None
      end
  | ResourceEmits r type args =>
      '(h, _) ← emit_at (mem p) (Resource r) type args;
      Some (with_mem p h)
  end.

Fixpoint run (p : LazyInitializationProvider) (tr : list action)
  : option LazyInitializationProvider :=
  match tr with
  | [] => Some p
  | a :: rest => p' ← step p a; run p' rest
  end.

(** ** Vocabulary of the properties *)

(** The listeners of [type] on the emitter [e] of the heap. *)
Definition listeners_of (h : heap) (e : emitter_ref) (type : event) : list fn :=
  from_option (handlers type) [] (deref h e).

(** [h'] differs from [h] in listener tables only. *)
Definition listeners_changed (h h' : heap) : Prop :=
  fired h' = fired h ∧ wrappers h' = wrappers h ∧ log h' = log h ∧
  length (resources h') = length (resources h) ∧
  ∀ e, _maxListeners <$> deref h' e = _maxListeners <$> deref h e.

(** The runs of a caller's listener that once wrapper [w] performed. *)
Definition via (w : nat) (x : entry) : bool :=
  match x with
  | Invoked _ (Some w') _ => bool_decide (w' = w)
  | _ => false
  end.

Definition deliveries (w : nat) (l : list entry) : nat :=
  length (filter (λ x, via w x = true) l).

(** What holds of every heap the class can produce: [_emitter] has one
    entry per event name and a max-listeners value that [setMaxListeners]
    accepts, and a wrapper has run its listener once if its [fired] flag is
    set and never otherwise. *)
Record heap_ok (h : heap) : Prop := {
  ok_keys : NoDup (_events (_emitter h)).*1;
  ok_max : (0 ≤ Events.getMaxListeners (_emitter h))%Z;
  ok_once : ∀ w, deliveries w (log h) = if decide (w ∈ fired h) then 1 else 0
}.

(** Every wrapper in a listener list and every set [fired] flag belongs to
    a wrapper numbered below [wrappers h]: the next [once] creates a new
    one. *)
Definition numbered_below (n : nat) (f : fn) : Prop := (after f ≤ n)%nat.

Definition ids_ok (h : heap) : Prop :=
  (∀ e E type, deref h e = Some E →
               Forall (numbered_below (wrappers h)) (handlers type E)) ∧
  (∀ w, w ∈ fired h → (w < wrappers h)%nat).

(** No caller's function sits in the list both as itself and inside a once
    wrapper. *)
Definition unambiguous (fs : list fn) : Prop :=
  ∀ c w target type, Callback c ∈ fs → OnceWrapper w target type c ∉ fs.

(** The states the class can be in: those a run from a new instance
    leads to. *)
Definition reachable (p : LazyInitializationProvider) : Prop := ∃ rs tr, run (init rs) tr = Some p.

(** No call is suspended at [await this._providerFactory()]. *)
Definition no_factory_pending (p : LazyInitializationProvider) : Prop :=
  ∀ t c, tasks p !! t ≠ Some (c, AwaitingFactory).

(** [this.provider!]: a continuation that runs after [_initProvider] has
    completed finds a provider. *)
Definition completed_have_provider (p : LazyInitializationProvider) : Prop :=
  ∀ t c, tasks p !! t = Some (c, AwaitingInit None) → is_Some (provider p).

(** A log entry that records the run of a caller's listener. *)
Definition is_run (x : entry) : Prop :=
  match x with
  | Invoked _ _ _ => True
  | _ => False
  end.

(** Every once wrapper in the list unregisters itself from [_emitter]. *)
Definition targets_buffer (fs : list fn) : Prop :=
  ∀ w target type c, OnceWrapper w target type c ∈ fs → target = Buffer.

(** Every once wrapper recorded in [_emitter] was made by [_emitter]. *)
Definition recorded_target_buffer (h : heap) : Prop :=
  ∀ type, targets_buffer (handlers type (_emitter h)).

(** The actions that do not need a provider: everything but a factory
    promise that resolves and an event a provider emits by itself. *)
Definition before_construction (a : action) : Prop :=
  match a with
  | FactorySettles _ (inl _) => False
  | ResourceEmits _ _ _ => False
  | _ => True
  end.

Definition is_call (a : action) : bool :=
  match a with
  | Call _ => true
  | _ => false
  end.

(** The JSON-RPC traffic: a call and the continuation of one.  Neither
    resolves a factory promise or calls an emitter method. *)
Definition is_rpc (a : action) : Prop :=
  match a with
  | Call _ | Continue _ => True
  | _ => False
  end.

(** * Lemmas *)

(** ** The listener table *)

Section ListenerTable.
Implicit Types (E : EventEmitter) (evs : list (event * list fn)) (f : fn).

Lemma lookup_replace_eq type fs evs :
  lookup_event type (replace_event type fs evs) = Some fs.
Proof.
  induction evs as [|[k old] rest IH]; simpl.
  - by rewrite decide_True.
  - destruct (decide (k = type)) as [->|Hne]; simpl.
    + by rewrite decide_True.
    + by rewrite decide_False.
Qed.

Lemma lookup_replace_ne type type' fs evs :
  type' ≠ type →
  lookup_event type' (replace_event type fs evs) = lookup_event type' evs.
Proof.
  intros Hne. induction evs as [|[k old] rest IH]; simpl.
  - by rewrite decide_False.
  - destruct (decide (k = type)) as [->|Hk]; simpl.
    + by rewrite !decide_False.
    + destruct (decide (k = type')); [done|apply IH].
Qed.

Lemma lookup_delete_event type type' evs :
  lookup_event type' (delete_event type evs)
  = if decide (type' = type) then None else lookup_event type' evs.
Proof.
  unfold delete_event.
  induction evs as [|[k old] rest IH]; simpl.
  - by destruct (decide _).
  - rewrite filter_cons. simpl.
    destruct (decide (k ≠ type)) as [Hk|Hk]; simpl.
    + destruct (decide (k = type')) as [->|]; [by rewrite decide_False|done].
    + apply dec_stable in Hk. subst k. rewrite IH.
      destruct (decide (type' = type)) as [->|]; [done|by rewrite decide_False].
Qed.

Lemma handlers_store type type' fs E :
  handlers type' (store type fs E)
  = if decide (type' = type) then fs else handlers type' E.
Proof.
  unfold handlers, store. simpl. destruct fs as [|f fs].
  - rewrite lookup_delete_event. by destruct (decide _).
  - destruct (decide (type' = type)) as [->|Hne].
    + by rewrite lookup_replace_eq.
    + by rewrite lookup_replace_ne.
Qed.

Lemma handlers_store_eq type fs E : handlers type (store type fs E) = fs.
Proof. rewrite handlers_store. by rewrite decide_True. Qed.

Lemma handlers_store_ne type type' fs E :
  type' ≠ type → handlers type' (store type fs E) = handlers type' E.
Proof. intros. rewrite handlers_store. by rewrite decide_False. Qed.

Lemma handlers_absent type E : type ∉ (_events E).*1 → handlers type E = [].
Proof.
  unfold handlers. destruct E as [evs m]. simpl.
  induction evs as [|[k fs] rest IH]; simpl; [done|].
  intros Hnin. rewrite not_elem_of_cons in Hnin. destruct Hnin as [Hk Hrest].
  rewrite decide_False; [by apply IH|congruence].
Qed.

Lemma keys_replace type fs evs :
  (replace_event type fs evs).*1
  = if decide (type ∈ evs.*1) then evs.*1 else evs.*1 ++ [type].
Proof.
  induction evs as [|[k old] rest IH]; cbn [replace_event].
  - by destruct (decide _) as [Hin%elem_of_nil|].
  - rewrite fmap_cons. cbn [fst].
    destruct (decide (k = type)) as [->|Hk]; rewrite fmap_cons; cbn [fst].
    + rewrite decide_True; [done|]. apply list_elem_of_here.
    + rewrite IH. destruct (decide (type ∈ rest.*1)) as [Hin|Hnin].
      * rewrite decide_True; [done|]. by apply list_elem_of_further.
      * rewrite decide_False; [done|].
        rewrite not_elem_of_cons. split; [congruence|done].
Qed.

Lemma keys_store_NoDup type fs E :
  NoDup (_events E).*1 → NoDup (_events (store type fs E)).*1.
Proof.
  intros Hnd. unfold store. simpl. destruct fs as [|f fs].
  - unfold delete_event. eapply sublist_NoDup; [exact Hnd|].
    apply fmap_sublist, sublist_filter.
  - rewrite keys_replace. destruct (decide _); [done|].
    apply NoDup_app. split; [done|]. split.
    + intros x Hx Hx'. apply list_elem_of_singleton in Hx'. by subst.
    + apply NoDup_singleton.
Qed.
End ListenerTable.

(** ** The heap operations *)


Section HeapLemmas.
Implicit Types (h : heap) (e : emitter_ref) (E : EventEmitter) (f : fn).

Lemma deref_assign_eq h e E :
  is_Some (deref h e) → deref (assign h e E) e = Some E.
Proof.
  destruct e as [|r]; simpl; [done|].
  intros Hs. apply list_lookup_insert_eq. by apply lookup_lt_is_Some.
Qed.

Lemma deref_assign_ne h e e' E :
  e ≠ e' → deref (assign h e E) e' = deref h e'.
Proof.
  destruct e as [|r], e' as [|r']; simpl; try done.
  intros Hne. apply list_lookup_insert_ne. congruence.
Qed.

Lemma listeners_changed_refl h : listeners_changed h h.
Proof. by repeat split. Qed.

Lemma listeners_changed_trans h1 h2 h3 :
  listeners_changed h1 h2 → listeners_changed h2 h3 → listeners_changed h1 h3.
Proof.
  intros (?&?&?&?&Hm) (?&?&?&?&Hm').
  repeat split; try congruence; intros e; by rewrite Hm', Hm.
Qed.

Lemma listeners_changed_assign h e E E' :
  deref h e = Some E → _maxListeners E' = _maxListeners E →
  listeners_changed h (assign h e E').
Proof.
  intros HE Hmax. repeat split; try by destruct e.
  - destruct e; simpl; [done|]. by rewrite length_insert.
  - intros e'. destruct (decide (e = e')) as [<-|Hne].
    + rewrite deref_assign_eq by eauto. rewrite HE. simpl. by f_equal.
    + by rewrite deref_assign_ne.
Qed.

Lemma add_at_Some h e type f prepend h' :
  add_at h e type f prepend = Some h' →
  ∃ E, deref h e = Some E ∧ has_listeners "newListener" E = false ∧
       h' = assign h e (store type (if prepend then f :: handlers type E
                                    else handlers type E ++ [f]) E).
Proof.
  unfold add_at, _addListener. intros H.
  destruct (deref h e) as [E|]; simpl in H; [|done].
  destruct (has_listeners "newListener" E) eqn:Hnl; simpl in H; [done|].
  injection H as <-. by exists E.
Qed.

Lemma removeListener_Some E type f E' :
  Events.removeListener E type f = Some E' →
  E' = E ∨ ∃ fs, remove_last f (handlers type E) = Some fs ∧ E' = store type fs E.
Proof.
  unfold Events.removeListener. intros H.
  destruct (remove_last f (handlers type E)) as [fs|]; [|left; congruence].
  destruct (has_listeners _ _); [done|]. right. exists fs. split; congruence.
Qed.

Lemma remove_at_Some h e type f h' :
  remove_at h e type f = Some h' →
  ∃ E E', deref h e = Some E ∧ Events.removeListener E type f = Some E' ∧
          h' = assign h e E'.
Proof.
  unfold remove_at. intros H.
  destruct (deref h e) as [E|]; simpl in H; [|done].
  destruct (Events.removeListener E type f) as [E'|] eqn:HE'; simpl in H; [|done].
  injection H as <-. eauto.
Qed.

Lemma add_at_changed h e type f prepend h' :
  add_at h e type f prepend = Some h' → listeners_changed h h'.
Proof.
  intros (E & HE & _ & ->)%add_at_Some. by eapply listeners_changed_assign.
Qed.

Lemma remove_at_changed h e type f h' :
  remove_at h e type f = Some h' → listeners_changed h h'.
Proof.
  intros (E & E' & HE & Hrm & ->)%remove_at_Some.
  eapply listeners_changed_assign; [done|].
  apply removeListener_Some in Hrm as [->|(fs & _ & ->)]; done.
Qed.

Lemma add_at_listeners h e type f h' e' type' :
  add_at h e type f false = Some h' →
  listeners_of h' e' type'
  = if decide (e' = e ∧ type' = type) then listeners_of h e type ++ [f]
    else listeners_of h e' type'.
Proof.
  intros (E & HE & _ & ->)%add_at_Some. unfold listeners_of.
  destruct (decide (e = e')) as [<-|Hne].
  - rewrite deref_assign_eq by eauto. rewrite HE. simpl.
    rewrite handlers_store.
    destruct (decide (type' = type)) as [->|].
    + by rewrite decide_True.
    + rewrite decide_False; [done|]. by intros [_ ?].
  - rewrite deref_assign_ne by done.
    rewrite decide_False; [done|]. intros [-> _]. done.
Qed.

Lemma remove_at_listeners_ne h e type f h' e' type' :
  remove_at h e type f = Some h' → e' ≠ e ∨ type' ≠ type →
  listeners_of h' e' type' = listeners_of h e' type'.
Proof.
  intros (E & E' & HE & Hrm & ->)%remove_at_Some Hne. unfold listeners_of.
  destruct (decide (e = e')) as [<-|Hne'].
  - rewrite deref_assign_eq by eauto. rewrite HE. simpl.
    apply removeListener_Some in Hrm as [->|(fs & _ & ->)]; [done|].
    apply handlers_store_ne. by destruct Hne.
  - by rewrite deref_assign_ne.
Qed.

Lemma add_at_keys h e type f prepend h' :
  add_at h e type f prepend = Some h' →
  NoDup (_events (_emitter h)).*1 → NoDup (_events (_emitter h')).*1.
Proof.
  intros (E & HE & _ & ->)%add_at_Some Hnd. destruct e; simpl in *; [|done].
  injection HE as <-. by apply keys_store_NoDup.
Qed.

Lemma remove_at_keys h e type f h' :
  remove_at h e type f = Some h' →
  NoDup (_events (_emitter h)).*1 → NoDup (_events (_emitter h')).*1.
Proof.
  intros (E & E' & HE & Hrm & ->)%remove_at_Some Hnd.
  destruct e; simpl in *; [|done]. injection HE as <-.
  apply removeListener_Some in Hrm as [->|(fs & _ & ->)]; [done|].
  by apply keys_store_NoDup.
Qed.
End HeapLemmas.

(** ** Copying the recorded listeners *)

Section Migration.
Implicit Types (h : heap) (r : nat) (E : EventEmitter).

Lemma own_keys_Permutation ks : own_keys ks ≡ₚ ks.
Proof.
  unfold own_keys. rewrite merge_sort_Permutation. apply filter_app_complement.
Qed.

Lemma eventNames_NoDup E : NoDup (_events E).*1 → NoDup (Events.eventNames E).
Proof. unfold Events.eventNames. by rewrite own_keys_Permutation. Qed.

Lemma eventNames_absent E type :
  type ∉ Events.eventNames E → handlers type E = [].
Proof.
  unfold Events.eventNames. rewrite own_keys_Permutation. apply handlers_absent.
Qed.

Lemma copy_listeners_spec h r ev ls h' :
  copy_listeners h r ev ls = Some h' →
  listeners_changed h h' ∧
  listeners_of h' (Resource r) ev = listeners_of h (Resource r) ev ++ ls ∧
  (∀ e type, type ≠ ev → listeners_of h' e type = listeners_of h e type) ∧
  (∀ e, e ≠ Buffer → e ≠ Resource r → deref h' e = deref h e) ∧
  (NoDup (_events (_emitter h)).*1 → NoDup (_events (_emitter h')).*1).
Proof.
  revert h. induction ls as [|l rest IH]; intros h Hcopy; simpl in Hcopy.
  - injection Hcopy as <-. rewrite app_nil_r.
    split_and!; auto using listeners_changed_refl.
  - destruct (add_at h (Resource r) ev l false) as [h1|] eqn:Hadd; [|done].
    simpl in Hcopy.
    destruct (remove_at h1 Buffer ev l) as [h2|] eqn:Hrm; [|done].
    simpl in Hcopy.
    destruct (IH _ Hcopy) as (Hch & Hls & Hother & Hfar & Hnd).
    split_and!.
    + eapply listeners_changed_trans; [|exact Hch].
      eapply listeners_changed_trans;
        eauto using add_at_changed, remove_at_changed.
    + rewrite Hls.
      rewrite (remove_at_listeners_ne _ _ _ _ _ _ _ Hrm) by (by left).
      rewrite (add_at_listeners _ _ _ _ _ _ _ Hadd).
      rewrite decide_True by done. by rewrite <- app_assoc.
    + intros e type Hne. rewrite Hother by done.
      rewrite (remove_at_listeners_ne _ _ _ _ _ _ _ Hrm) by (by right).
      rewrite (add_at_listeners _ _ _ _ _ _ _ Hadd).
      rewrite decide_False; [done|]. by intros [_ ?].
    + intros e HB HR. rewrite Hfar by done.
      apply remove_at_Some in Hrm as (? & ? & _ & _ & ->).
      apply add_at_Some in Hadd as (? & _ & _ & ->).
      by rewrite !deref_assign_ne.
    + intros Hk. eauto using add_at_keys, remove_at_keys.
Qed.

Lemma copy_events_spec h r evs h' :
  copy_events h r evs = Some h' → NoDup evs →
  listeners_changed h h' ∧
  (∀ type, listeners_of h' (Resource r) type
           = listeners_of h (Resource r) type
             ++ (if decide (type ∈ evs) then listeners_of h Buffer type else [])) ∧
  (∀ e, e ≠ Buffer → e ≠ Resource r → deref h' e = deref h e) ∧
  (NoDup (_events (_emitter h)).*1 → NoDup (_events (_emitter h')).*1).
Proof.
  revert h. induction evs as [|ev rest IH]; intros h Hcopy Hnd; simpl in Hcopy.
  - injection Hcopy as <-. split_and!; auto using listeners_changed_refl.
    intros type. by rewrite app_nil_r.
  - destruct (copy_listeners h r ev _) as [h1|] eqn:Hinner; [|done].
    simpl in Hcopy. apply NoDup_cons in Hnd as [Hev Hnd].
    apply copy_listeners_spec in Hinner as (Hch1 & Hls1 & Hother1 & Hfar1 & Hk1).
    destruct (IH _ Hcopy Hnd) as (Hch & Hls & Hfar & Hk).
    split_and!.
    + by eapply listeners_changed_trans.
    + intros type. rewrite Hls.
      destruct (decide (type = ev)) as [->|Hne].
      * rewrite decide_False by done. rewrite app_nil_r, Hls1.
        rewrite decide_True by apply list_elem_of_here. done.
      * rewrite !Hother1 by done.
        destruct (decide (type ∈ rest)) as [Hin|Hnin].
        -- rewrite decide_True; [done|]. by apply list_elem_of_further.
        -- rewrite decide_False; [done|].
           rewrite not_elem_of_cons. by split.
    + intros e HB HR. rewrite Hfar, Hfar1; done.
    + auto.
Qed.

(** After the two loops every recorded listener sits on the provider,
    behind the provider's own, in the order it had in [_emitter]. *)
Lemma copy_recorded_events h r h' :
  copy_events h r (Events.eventNames (_emitter h)) = Some h' →
  NoDup (_events (_emitter h)).*1 →
  ∀ type, listeners_of h' (Resource r) type
          = listeners_of h (Resource r) type ++ listeners_of h Buffer type.
Proof.
  intros Hcopy Hnd type.
  apply copy_events_spec in Hcopy as (_ & Hls & _); [|by apply eventNames_NoDup].
  rewrite Hls. destruct (decide _) as [|Hnin]; [done|].
  unfold listeners_of at 3. simpl. by rewrite eventNames_absent.
Qed.
End Migration.

(** ** Invariants of the heap *)


Section HeapInvariant.
Implicit Types (h : heap) (e : emitter_ref) (E : EventEmitter) (f : fn).

Lemma deliveries_snoc w l x :
  deliveries w (l ++ [x]) = deliveries w l + (if via w x then 1 else 0).
Proof.
  unfold deliveries. rewrite filter_app, length_app. f_equal.
  rewrite filter_cons, filter_nil. by destruct (via w x).
Qed.

Lemma listeners_changed_max h h' :
  listeners_changed h h' →
  Events.getMaxListeners (_emitter h') = Events.getMaxListeners (_emitter h).
Proof.
  intros (_ & _ & _ & _ & Hmax). specialize (Hmax Buffer). simpl in Hmax.
  unfold Events.getMaxListeners. congruence.
Qed.

Lemma listeners_changed_ok h h' :
  listeners_changed h h' → NoDup (_events (_emitter h')).*1 →
  heap_ok h → heap_ok h'.
Proof.
  intros Hch Hnd [Hk Hm Ho]. split; [done|..].
  - by rewrite (listeners_changed_max _ _ Hch).
  - destruct Hch as (-> & _ & -> & _). done.
Qed.

Lemma add_at_ok h e type f prepend h' :
  add_at h e type f prepend = Some h' → heap_ok h → heap_ok h'.
Proof.
  intros Hadd Hok. eapply listeners_changed_ok; [by eapply add_at_changed| |done].
  eapply add_at_keys; [done|]. apply Hok.
Qed.

Lemma remove_at_ok h e type f h' :
  remove_at h e type f = Some h' → heap_ok h → heap_ok h'.
Proof.
  intros Hrm Hok. eapply listeners_changed_ok; [by eapply remove_at_changed| |done].
  eapply remove_at_keys; [done|]. apply Hok.
Qed.

Lemma record_ok h x :
  (∀ w, via w x = false) → heap_ok h → heap_ok (record h x).
Proof.
  intros Hx [Hk Hm Ho]. split; simpl; [done..|].
  intros w. by rewrite deliveries_snoc, Hx, Nat.add_0_r.
Qed.

Lemma invoke_ok args h f h' :
  invoke args h f = Some h' → heap_ok h → heap_ok h' ∧ fired h ⊆ fired h'.
Proof.
  destruct f as [c|w target type c]; simpl; intros Hinv Hok.
  - injection Hinv as <-. split; [|done]. by apply record_ok.
  - destruct (decide (w ∈ fired h)) as [Hin|Hnin]; [by injection Hinv as <-|].
    destruct (remove_at h target type _) as [h1|] eqn:Hrm; [|done].
    simpl in Hinv. injection Hinv as <-.
    pose proof (remove_at_ok _ _ _ _ _ Hrm Hok) as [Hk Hm Ho].
    apply remove_at_changed in Hrm as (Hf & _).
    split.
    + split; simpl; [done..|]. intros w'.
      rewrite deliveries_snoc, Ho, Hf. simpl.
      destruct (decide (w' = w)) as [->|Hne].
      * rewrite bool_decide_true by done.
        rewrite decide_False by done.
        rewrite decide_True; [done|]. apply elem_of_union_l, elem_of_singleton. done.
      * rewrite bool_decide_false by congruence.
        rewrite Nat.add_0_r.
        destruct (decide (w' ∈ fired h)) as [Hin'|Hnin'].
        -- rewrite decide_True; [done|]. by apply elem_of_union_r.
        -- rewrite decide_False; [done|].
           rewrite elem_of_union, elem_of_singleton. tauto.
    + simpl. rewrite Hf. apply union_subseteq_r.
Qed.

Lemma invoke_all_ok args h fs h' :
  invoke_all args h fs = Some h' → heap_ok h → heap_ok h' ∧ fired h ⊆ fired h'.
Proof.
  revert h. induction fs as [|f rest IH]; intros h Hall Hok; simpl in Hall.
  - injection Hall as <-. by split.
  - destruct (invoke args h f) as [h1|] eqn:Hinv; [|done]. simpl in Hall.
    destruct (invoke_ok _ _ _ _ Hinv Hok) as [Hok1 Hsub1].
    destruct (IH _ Hall Hok1) as [Hok' Hsub']. split; [done|by etrans].
Qed.

Lemma emit_at_ok h e type args h' out :
  emit_at h e type args = Some (h', out) → heap_ok h →
  heap_ok h' ∧ fired h ⊆ fired h'.
Proof.
  unfold emit_at. intros Hemit Hok.
  destruct (deref h e) as [E|]; [|done]. cbn -[invoke_all] in Hemit.
  destruct (handlers type E) as [|f fs].
  - destruct (decide (type = "error")); injection Hemit as <- _; by split.
  - destruct (invoke_all args h (f :: fs)) as [h1|] eqn:Hall; [|done].
    cbn in Hemit. injection Hemit as <- _. by eapply invoke_all_ok.
Qed.
End HeapInvariant.

Section Preservation.
Implicit Types (h : heap) (e : emitter_ref) (p : LazyInitializationProvider).

Lemma this_Some (o : option heap) h' out :
  this o = Some (h', out) → o = Some h' ∧ out = Returned VThis.
Proof. destruct o; simpl; [|done]. intros [= <- <-]. done. Qed.

Lemma read_Some h e g h' out :
  read h e g = Some (h', out) →
  h' = h ∧ ∃ E, deref h e = Some E ∧ out = Returned (g E).
Proof.
  unfold read. destruct (deref h e) as [E|]; simpl; [|done].
  intros [= <- <-]. eauto.
Qed.

Lemma assign_ok h e E' :
  heap_ok h →
  (e = Buffer → NoDup (_events E').*1 ∧ (0 ≤ Events.getMaxListeners E')%Z) →
  heap_ok (assign h e E').
Proof.
  intros [Hk Hm Ho] HB. destruct e; split; simpl; try done; by apply HB.
Qed.

Lemma fresh_wrapper_ok h : heap_ok h → heap_ok (fresh_wrapper h).
Proof. intros [Hk Hm Ho]. by split. Qed.

Lemma fired_assign h e E' : fired (assign h e E') = fired h.
Proof. by destruct e. Qed.

Lemma exec_ok h e m h' out :
  exec h e m = Some (h', out) → heap_ok h → heap_ok h' ∧ fired h ⊆ fired h'.
Proof.
  intros Hexec Hok.
  destruct m; simpl in Hexec;
    try (apply this_Some in Hexec as [Hexec _]);
    try (apply read_Some in Hexec as [-> _]; by split);
    try (split; [by eauto using add_at_ok, remove_at_ok, fresh_wrapper_ok|];
         first [apply add_at_changed in Hexec|apply remove_at_changed in Hexec];
         destruct Hexec as (-> & _); done).
  - (* removeAllListeners *)
    destruct (deref h e) as [E|] eqn:HE; [|done]. simpl in Hexec.
    unfold Events.removeAllListeners in Hexec.
    destruct (has_listeners _ _); [done|].
    simpl in Hexec. injection Hexec as <-.
    rewrite fired_assign. split; [|done]. apply assign_ok; [done|].
    intros ->. simpl in HE. injection HE as <-.
    split; [apply keys_store_NoDup|]; apply Hok.
  - (* setMaxListeners *)
    destruct (deref h e) as [E|] eqn:HE; [|done]. simpl in Hexec.
    unfold Events.setMaxListeners in Hexec.
    destruct (decide (n < 0)%Z) as [Hn|Hn]; injection Hexec as <- <-.
    + by split.
    + rewrite fired_assign. split; [|done]. apply assign_ok; [done|].
      intros ->. simpl in HE. injection HE as <-. simpl.
      split; [apply Hok|]. unfold Events.getMaxListeners. simpl. lia.
  - (* emit *)
    by eapply emit_at_ok.
Qed.

Lemma copy_events_ok h r evs h' :
  copy_events h r evs = Some h' → NoDup evs → heap_ok h → heap_ok h'.
Proof.
  intros Hcopy Hnd Hok.
  apply copy_events_spec in Hcopy as (Hch & _ & _ & Hk); [|done].
  eapply listeners_changed_ok; [done| |done]. apply Hk, Hok.
Qed.

Lemma finish_not_via p t c failure w : via w (finish p t c failure) = false.
Proof. unfold finish. by repeat case_match. Qed.

Lemma _initProvider_resume_ok p result p' failure :
  _initProvider_resume p result = Some (p', failure) →
  heap_ok (mem p) → heap_ok (mem p') ∧ fired (mem p') = fired (mem p).
Proof.
  intros Hres Hok. destruct result as [r|e]; simpl in Hres.
  - destruct (resources (mem p) !! r) as [R0|]; [|done]. simpl in Hres.
    destruct (copy_events _ _ _) as [h|] eqn:Hcopy; [|done]. simpl in Hres.
    destruct (resources h !! r) as [R|]; [|done]. simpl in Hres.
    pose proof (eventNames_NoDup _ (ok_keys _ Hok)) as Hnd.
    pose proof (copy_events_ok _ _ _ _ Hcopy Hnd Hok) as Hok1.
    apply copy_events_spec in Hcopy as ((Hf & _) & _); [|done].
    destruct (Events.setMaxListeners R _); injection Hres as <- <-; simpl.
    + split; [|done]. by apply (assign_ok h (Resource r)).
    + by split.
  - injection Hres as <- <-. by split.
Qed.

Lemma step_ok p a p' :
  step p a = Some p' → heap_ok (mem p) →
  heap_ok (mem p') ∧ fired (mem p) ⊆ fired (mem p').
Proof.
  intros Hstep Hok. destruct a as [c|m|t result|t|r type args]; simpl in Hstep.
  - injection Hstep as <-. unfold start, _initProvider_enter.
    destruct (provider p); by split.
  - unfold via_emitter in Hstep.
    destruct (exec (mem p) (_getEmitter p) m) as [[h out]|] eqn:Hexec; [|done].
    simpl in Hstep. injection Hstep as <-. simpl. by eapply exec_ok.
  - destruct (tasks p !! t) as [[c [|failure]]|]; try done.
    destruct (_initProvider_resume p result) as [[p1 failure]|] eqn:Hres; [|done].
    simpl in Hstep. injection Hstep as <-. simpl.
    apply _initProvider_resume_ok in Hres as [Hok1 ->]; done.
  - destruct (tasks p !! t) as [[c [|failure]]|]; try done.
    injection Hstep as <-. simpl. split; [|done].
    apply record_ok; [|done]. intros w. apply finish_not_via.
  - destruct (emit_at (mem p) (Resource r) type args) as [[h out]|] eqn:Hemit; [|done].
    simpl in Hstep. injection Hstep as <-. simpl. by eapply emit_at_ok.
Qed.

Lemma run_ok p tr p' :
  run p tr = Some p' → heap_ok (mem p) →
  heap_ok (mem p') ∧ fired (mem p) ⊆ fired (mem p').
Proof.
  revert p. induction tr as [|a rest IH]; intros p Hrun Hok; simpl in Hrun.
  - injection Hrun as <-. by split.
  - destruct (step p a) as [p1|] eqn:Hstep; [|done]. simpl in Hrun.
    destruct (step_ok _ _ _ Hstep Hok) as [Hok1 Hsub1].
    destruct (IH _ Hrun Hok1) as [Hok' Hsub']. split; [done|by etrans].
Qed.

Lemma run_one p a : run p [a] = step p a.
Proof. simpl. by destruct (step p a). Qed.

Lemma init_ok rs : heap_ok (mem (init rs)).
Proof. split; simpl; [apply NoDup_nil_2|done|]. intros w. by rewrite decide_False. Qed.

Lemma run_app p tr1 tr2 :
  run p (tr1 ++ tr2) = p' ← run p tr1; run p' tr2.
Proof.
  revert p. induction tr1 as [|a rest IH]; intros p; simpl; [done|].
  destruct (step p a); simpl; [apply IH|done].
Qed.


Lemma reachable_ok p : reachable p → heap_ok (mem p).
Proof. intros (rs & tr & Hrun). eapply run_ok; [done|apply init_ok]. Qed.

Lemma reachable_run p tr p' : reachable p → run p tr = Some p' → reachable p'.
Proof.
  intros (rs & tr0 & Hrun0) Hrun. exists rs, (tr0 ++ tr).
  rewrite run_app, Hrun0. done.
Qed.
End Preservation.

(** ** The initialization gate *)

Section Gate.
Implicit Types (p : LazyInitializationProvider) (c : remote_call).

(** A JSON-RPC call that finds [provider] undefined invokes the factory:
    the guard of [_initProvider] reads a field that is written only after
    the awaited factory promise has resolved. *)
Lemma start_uninitialized p c :
  provider p = None →
  provider (start p c) = None ∧
  factoryCalls (start p c) = S (factoryCalls p) ∧
  mem (start p c) = mem p ∧
  spawned (start p c) = S (spawned p) ∧
  tasks (start p c) = <[spawned p := (c, AwaitingFactory)]> (tasks p).
Proof. unfold start, _initProvider_enter. intros ->. done. Qed.

Lemma start_initialized p c r :
  provider p = Some r →
  provider (start p c) = Some r ∧
  factoryCalls (start p c) = factoryCalls p ∧
  mem (start p c) = mem p ∧
  tasks (start p c) = <[spawned p := (c, AwaitingInit None)]> (tasks p).
Proof. unfold start, _initProvider_enter. intros H. rewrite H. simpl. by rewrite H. Qed.

Lemma calls_before_construction p cs :
  provider p = None →
  ∃ p', run p (Call <$> cs) = Some p' ∧
        provider p' = None ∧ mem p' = mem p ∧
        factoryCalls p' = factoryCalls p + length cs.
Proof.
  revert p. induction cs as [|c rest IH]; intros p Hp; simpl.
  - exists p. by rewrite Nat.add_0_r.
  - destruct (start_uninitialized p c Hp) as (Hp1 & Hf1 & Hm1 & _).
    destruct (IH _ Hp1) as (p' & Hrun & Hp' & Hm' & Hf').
    exists p'. split_and!; [done|done|congruence|lia].
Qed.
End Gate.

(** ** What [_initProvider] does when the factory resolves *)

Section Construction.
Implicit Types (p : LazyInitializationProvider) (h : heap).

Lemma _initProvider_resume_resolved p r p' failure :
  heap_ok (mem p) →
  _initProvider_resume p (inl r) = Some (p', failure) →
  failure = None ∧ provider p' = Some r ∧
  factoryCalls p' = factoryCalls p ∧ tasks p' = tasks p ∧ spawned p' = spawned p ∧
  log (mem p') = log (mem p) ∧ fired (mem p') = fired (mem p) ∧
  wrappers (mem p') = wrappers (mem p) ∧
  (∃ R', resources (mem p') !! r = Some R' ∧
         _maxListeners R' = Some (Events.getMaxListeners (_emitter (mem p)))) ∧
  (∀ type, listeners_of (mem p') (Resource r) type
           = listeners_of (mem p) (Resource r) type
             ++ listeners_of (mem p) Buffer type) ∧
  (∀ r', r' ≠ r → resources (mem p') !! r' = resources (mem p) !! r').
Proof.
  intros Hok Hres. simpl in Hres.
  destruct (resources (mem p) !! r) as [R0|]; [|done]. simpl in Hres.
  destruct (copy_events _ _ _) as [h|] eqn:Hcopy; [|done]. simpl in Hres.
  destruct (resources h !! r) as [R|] eqn:HR; [|done]. simpl in Hres.
  pose proof (copy_recorded_events _ _ _ Hcopy (ok_keys _ Hok)) as Hls.
  apply copy_events_spec in Hcopy as (Hch & _ & Hfar & _);
    [|apply eventNames_NoDup, Hok].
  pose proof (listeners_changed_max _ _ Hch) as Hmax.
  destruct Hch as (Hf & Hw & Hl & _).
  unfold Events.setMaxListeners in Hres.
  rewrite Hmax in Hres.
  destruct (decide _) as [Hneg|_]; [pose proof (ok_max _ Hok); lia|].
  injection Hres as <- <-. simpl. split_and!; try done.
  - eexists. split; [apply list_lookup_insert_eq; by eapply lookup_lt_Some|done].
  - intros type. rewrite <- Hls. unfold listeners_of. simpl.
    rewrite list_lookup_insert_eq by (by eapply lookup_lt_Some).
    by rewrite HR.
  - intros r' Hne. rewrite list_lookup_insert_ne by done.
    apply (Hfar (Resource r')); congruence.
Qed.

Lemma settle_resolved p t r p' :
  heap_ok (mem p) → step p (FactorySettles t (inl r)) = Some p' →
  ∃ c, tasks p !! t = Some (c, AwaitingFactory) ∧
       tasks p' = <[t := (c, AwaitingInit None)]> (tasks p) ∧
       provider p' = Some r ∧ factoryCalls p' = factoryCalls p ∧
       log (mem p') = log (mem p) ∧ fired (mem p') = fired (mem p) ∧
       (∃ R', resources (mem p') !! r = Some R' ∧
              _maxListeners R' = Some (Events.getMaxListeners (_emitter (mem p)))) ∧
       (∀ type, listeners_of (mem p') (Resource r) type
                = listeners_of (mem p) (Resource r) type
                  ++ listeners_of (mem p) Buffer type).
Proof.
  intros Hok Hstep. cbn [step] in Hstep.
  destruct (tasks p !! t) as [[c [|failure]]|]; try done.
  destruct (_initProvider_resume p (inl r)) as [[p1 failure]|] eqn:Hres; [|done].
  cbn in Hstep. injection Hstep as <-.
  apply _initProvider_resume_resolved in Hres
    as (-> & Hp & Hf & Ht & _ & Hl & Hfi & _ & HR & Hls & _); [|done].
  exists c. simpl. rewrite Ht. split_and!; done.
Qed.

(** What the instance lists after construction: the provider's own
    listeners, then the recorded ones, the same functions in the order they
    had in [_emitter]. *)
Lemma migrated_listeners_listed p t r p' type :
  heap_ok (mem p) →
  step p (FactorySettles t (inl r)) = Some p' →
  rawListeners p' type
  = Some (p', Returned (VFns (listeners_of (mem p) (Resource r) type
                              ++ Events.rawListeners (_emitter (mem p)) type))) ∧
  listeners p' type
  = Some (p', Returned (VFns (unwrap <$> (listeners_of (mem p) (Resource r) type
                                          ++ Events.rawListeners (_emitter (mem p)) type)))).
Proof.
  intros Hok Hstep.
  apply settle_resolved in Hstep as (c & _ & _ & Hp' & _ & _ & _ & (R' & HR' & _) & Hls);
    [|done].
  specialize (Hls type). unfold listeners_of in Hls at 1. cbn in Hls.
  rewrite HR' in Hls. cbn in Hls.
  unfold rawListeners, listeners, via_emitter, _getEmitter. rewrite Hp'.
  cbn. unfold read. cbn. rewrite HR'. cbn.
  unfold Events.rawListeners, Events.listeners. rewrite Hls.
  by destruct p'.
Qed.

Lemma settle_rejected p t e c :
  tasks p !! t = Some (c, AwaitingFactory) →
  step p (FactorySettles t (inr e))
  = Some (mkProvider (provider p) (mem p) (factoryCalls p)
            (<[t := (c, AwaitingInit (Some (FactoryFailure e)))]> (tasks p))
            (spawned p)).
Proof. intros Ht. cbn. by rewrite Ht. Qed.
End Construction.

(** ** The event emitter methods *)

Section Facade.
Implicit Types (p : LazyInitializationProvider) (h : heap) (m : emitter_call).

(** The only exceptions of the modelled emitter methods are those of
    the arguments: a negative max-listeners value and an 'error' event
    nobody listens to. *)
Lemma exec_Thrown h e m h' x :
  exec h e m = Some (h', Thrown x) →
  (∃ n, m = SetMaxListeners n ∧ (n < 0)%Z ∧ x = RangeError) ∨
  (∃ args, m = Emit "error" args ∧ x = Unhandled args ∧ listeners_of h e "error" = []).
Proof.
  intros Hexec.
  destruct m; simpl in Hexec;
    try (by apply this_Some in Hexec as [_ ?]);
    try (by apply read_Some in Hexec as (_ & ? & _ & ?)).
  - destruct (deref h e) as [E|]; [|done]. simpl in Hexec.
    unfold Events.setMaxListeners in Hexec.
    destruct (decide (n < 0)%Z); [|done].
    injection Hexec as _ <-. left. eauto.
  - unfold emit_at, listeners_of in *.
    destruct (deref h e) as [E|]; [|done]. cbn -[invoke_all] in *.
    destruct (handlers type E) as [|f fs] eqn:Hh.
    + destruct (decide (type = "error")) as [->|]; [|done].
      injection Hexec as _ <-. right. eauto.
    + destruct (invoke_all _ _ _); done.
Qed.

(** [removeAllListeners()] of the class, called without argument, removes
    the listeners of the event named 'undefined' and no others. *)
Example removeAllListeners_without_argument :
  ∃ p, run (init [])
           [Emitter (On "data" 0); Emitter (On "undefined" 1);
            Emitter (RemoveAllListeners None)] = Some p ∧
       _events (_emitter (mem p)) = [("data", [Callback 0])].
Proof. eexists. split; reflexivity. Qed.
End Facade.

(** ** After construction *)

Section Settled.
Implicit Types (p : LazyInitializationProvider).


Lemma emitter_step p m p' :
  step p (Emitter m) = Some p' →
  ∃ out, exec (mem p) (_getEmitter p) m = Some (mem p', out) ∧
         provider p' = provider p ∧ factoryCalls p' = factoryCalls p ∧
         tasks p' = tasks p ∧ spawned p' = spawned p.
Proof.
  cbn [step]. unfold via_emitter. intros Hstep.
  destruct (exec _ _ _) as [[h out]|]; [|done].
  cbn in Hstep. injection Hstep as <-. by exists out.
Qed.

Lemma settled_step p r a p' :
  provider p = Some r → no_factory_pending p → step p a = Some p' →
  provider p' = Some r ∧ factoryCalls p' = factoryCalls p ∧ no_factory_pending p'.
Proof.
  intros Hp Hnone Hstep. destruct a as [c|m|t result|t|r' type args]; cbn [step] in Hstep.
  - injection Hstep as <-.
    destruct (start_initialized p c r Hp) as (Hp' & Hf' & _ & Ht').
    split_and!; [done..|]. intros t c'. rewrite Ht'.
    destruct (decide (spawned p = t)) as [<-|Hne].
    + rewrite lookup_insert_eq. congruence.
    + rewrite lookup_insert_ne by done. apply Hnone.
  - unfold via_emitter in Hstep.
    destruct (exec _ _ _) as [[h out]|]; [|done].
    cbn in Hstep. by injection Hstep as <-.
  - destruct (tasks p !! t) as [[c [|failure]]|] eqn:Ht; try done.
    by destruct (Hnone t c).
  - destruct (tasks p !! t) as [[c [|failure]]|] eqn:Ht; try done.
    injection Hstep as <-. cbn. split_and!; [done..|].
    intros t' c'. cbn. destruct (decide (t = t')) as [<-|Hne].
    + by rewrite lookup_delete_eq.
    + rewrite lookup_delete_ne by done. apply Hnone.
  - destruct (emit_at _ _ _ _) as [[h out]|]; [|done].
    cbn in Hstep. by injection Hstep as <-.
Qed.

(** With a provider in place and no factory call in flight, nothing the
    callers or the scheduler do changes [provider] or invokes the
    factory. *)
Lemma settled_run p r tr p' :
  provider p = Some r → no_factory_pending p → run p tr = Some p' →
  provider p' = Some r ∧ factoryCalls p' = factoryCalls p.
Proof.
  revert p. induction tr as [|a rest IH]; intros p Hp Hnone Hrun; cbn in Hrun.
  - by injection Hrun as <-.
  - destruct (step p a) as [p1|] eqn:Hstep; [|done]. cbn in Hrun.
    destruct (settled_step _ _ _ _ Hp Hnone Hstep) as (Hp1 & Hf1 & Hnone1).
    destruct (IH _ Hp1 Hnone1 Hrun) as [Hp' Hf']. split; congruence.
Qed.

Lemma completed_step p a p' :
  step p a = Some p' → completed_have_provider p → completed_have_provider p'.
Proof.
  intros Hstep Hinv. destruct a as [c|m|t result|t|r' type args]; cbn [step] in Hstep.
  - injection Hstep as <-. intros t c'. unfold start, _initProvider_enter.
    destruct (provider p) as [r|] eqn:Hp; cbn; rewrite ?Hp; [by eauto|].
    destruct (decide (spawned p = t)) as [<-|Hne].
    + by rewrite lookup_insert_eq.
    + rewrite lookup_insert_ne by done. intros Ht. rewrite <- Hp. by eapply Hinv.
  - apply emitter_step in Hstep as (_ & _ & Hp & _ & Ht & _).
    intros t c. rewrite Hp, Ht. apply Hinv.
  - destruct (tasks p !! t) as [[c [|failure]]|] eqn:Ht; try done.
    destruct (_initProvider_resume p result) as [[p1 failure]|] eqn:Hres; [|done].
    cbn in Hstep. injection Hstep as <-. intros t' c'. cbn.
    destruct result as [r|e]; cbn in Hres.
    + destruct (resources (mem p) !! r); [|done]. cbn in Hres.
      destruct (copy_events _ _ _) as [h|]; [|done]. cbn in Hres.
      destruct (resources h !! r) as [R|]; [|done]. cbn in Hres.
      destruct (Events.setMaxListeners R _); injection Hres as <- _; by eauto.
    + injection Hres as <- <-.
      destruct (decide (t = t')) as [<-|Hne].
      * by rewrite lookup_insert_eq.
      * rewrite lookup_insert_ne by done. apply Hinv.
  - destruct (tasks p !! t) as [[c [|failure]]|] eqn:Ht; try done.
    injection Hstep as <-. intros t' c'. cbn.
    destruct (decide (t = t')) as [<-|Hne].
    + by rewrite lookup_delete_eq.
    + rewrite lookup_delete_ne by done. apply Hinv.
  - destruct (emit_at _ _ _ _) as [[h out]|]; [|done].
    cbn in Hstep. by injection Hstep as <-.
Qed.

Lemma reachable_completed p : reachable p → completed_have_provider p.
Proof.
  intros (rs & tr & Hrun).
  assert (completed_have_provider (init rs)) as Hinit by (by intros t c).
  revert Hrun Hinit. generalize (init rs). induction tr as [|a rest IH]; intros q Hrun Hq.
  - cbn in Hrun. by injection Hrun as <-.
  - cbn [run] in Hrun. destruct (step q a) as [q1|] eqn:Hstep; [|done].
    cbn in Hrun. eapply IH; [done|]. by eapply completed_step.
Qed.

(** So a call whose initialization completed is always forwarded. *)
Lemma completed_call_forwarded p t c :
  reachable p → tasks p !! t = Some (c, AwaitingInit None) →
  ∃ r, provider p = Some r ∧ finish p t c None = Forwarded r c.
Proof.
  intros Hreach Ht. destruct (reachable_completed p Hreach t c Ht) as [r Hr].
  exists r. split; [done|]. unfold finish. by rewrite Hr.
Qed.
End Settled.

(** ** A failed construction *)

Section Retry.
Implicit Types (p q : LazyInitializationProvider) (m : emitter_call).

(** Emitter methods see [provider] and the heap and nothing else. *)
Lemma emitter_run_frame ms p p' q :
  run p (Emitter <$> ms) = Some p' → provider q = provider p → mem q = mem p →
  provider p' = provider p ∧ factoryCalls p' = factoryCalls p ∧
  tasks p' = tasks p ∧ spawned p' = spawned p ∧
  ∃ q', run q (Emitter <$> ms) = Some q' ∧ mem q' = mem p' ∧
        provider q' = provider q.
Proof.
  revert p q. induction ms as [|m rest IH]; intros p q Hrun Hp Hm; cbn [fmap list_fmap run] in *.
  - injection Hrun as <-. split_and!; [done..|]. by exists q.
  - destruct (step p (Emitter m)) as [p1|] eqn:Hstep; [|done].
    cbn [mbind option_bind] in Hrun.
    apply emitter_step in Hstep as (out & Hexec & Hp1 & Hf1 & Ht1 & Hs1).
    assert (step q (Emitter m) = Some (with_mem q (mem p1))) as Hq.
    { cbn [step]. unfold via_emitter, _getEmitter in *. rewrite Hp, Hm, Hexec. done. }
    rewrite Hq. cbn [mbind option_bind].
    destruct (IH p1 (with_mem q (mem p1)) Hrun)
      as (Hp' & Hf' & Ht' & Hs' & q' & Hrun' & Hm' & Hpq');
      [cbn; congruence|done|].
    split_and!; [congruence..|]. by exists q'.
Qed.
End Retry.

(** ** Fire-once listeners *)

Section FireOnce.
Implicit Types (p : LazyInitializationProvider) (h : heap) (e : emitter_ref).

Lemma add_at_elem h e type f prepend h' :
  add_at h e type f prepend = Some h' → f ∈ listeners_of h' e type.
Proof.
  intros (E & HE & _ & ->)%add_at_Some. unfold listeners_of.
  rewrite deref_assign_eq by eauto. cbn [from_option]. rewrite handlers_store_eq.
  destruct prepend; [apply list_elem_of_here|].
  apply elem_of_app. right. apply list_elem_of_here.
Qed.

(** A wrapper that [emit] calls has its [fired] flag set afterwards. *)
Lemma invoke_all_fires args h fs h' w target type c :
  invoke_all args h fs = Some h' → heap_ok h →
  OnceWrapper w target type c ∈ fs → w ∈ fired h'.
Proof.
  revert h. induction fs as [|f rest IH]; intros h Hall Hok Hin.
  - by apply elem_of_nil in Hin.
  - cbn [invoke_all] in Hall.
    destruct (invoke args h f) as [h1|] eqn:Hinv; [|done].
    cbn [mbind option_bind] in Hall.
    destruct (invoke_ok _ _ _ _ Hinv Hok) as [Hok1 Hsub1].
    apply elem_of_cons in Hin as [<-|Hin]; [|by eapply IH].
    destruct (invoke_all_ok _ _ _ _ Hall Hok1) as [_ Hsub].
    apply Hsub. cbn [invoke] in Hinv.
    destruct (decide (w ∈ fired h)) as [Hfired|Hnot].
    + by injection Hinv as <-.
    + destruct (remove_at h target type _) as [h2|]; [|done].
      cbn in Hinv. injection Hinv as <-. cbn.
      apply elem_of_union_l, elem_of_singleton. done.
Qed.

Lemma emit_at_fires h e ev args h' out w target type c :
  emit_at h e ev args = Some (h', out) → heap_ok h →
  OnceWrapper w target type c ∈ listeners_of h e ev → w ∈ fired h'.
Proof.
  unfold emit_at, listeners_of. intros Hemit Hok Hin.
  destruct (deref h e) as [E|]; [|done]. cbn -[invoke_all] in *.
  destruct (handlers ev E) as [|f fs]; [by apply elem_of_nil in Hin|].
  destruct (invoke_all args h (f :: fs)) as [h1|] eqn:Hall; [|done].
  cbn in Hemit. injection Hemit as <- _. by eapply invoke_all_fires.
Qed.

(** No wrapper ever runs its listener twice. *)
Lemma deliveries_at_most_one p w :
  reachable p → (deliveries w (log (mem p)) ≤ 1)%nat.
Proof.
  intros Hok%reachable_ok. rewrite (ok_once _ Hok). destruct (decide _); lia.
Qed.
End FireOnce.

(** ** Wrapper numbers *)


Section WrapperNumbers.
Implicit Types (h : heap) (e : emitter_ref) (E : EventEmitter) (f : fn).

Lemma remove_last_sublist f fs fs' :
  remove_last f fs = Some fs' → fs' `sublist_of` fs.
Proof.
  revert fs'. induction fs as [|g rest IH]; intros fs' Hrm; simpl in Hrm; [done|].
  destruct (remove_last f rest) as [rest'|].
  - injection Hrm as <-. by apply sublist_skip, IH.
  - destruct (matches f g); [|done]. injection Hrm as <-. by apply sublist_cons.
Qed.

Lemma deref_assign_Some h e E' e' X :
  deref (assign h e E') e' = Some X → X = E' ∨ deref h e' = Some X.
Proof.
  destruct e as [|r], e' as [|r']; simpl; intros HX; try (by right).
  - left. congruence.
  - apply list_lookup_insert_Some in HX as [(_ & -> & _)|[_ HX]]; [by left|by right].
Qed.

Lemma store_below n type fs E :
  (∀ t, Forall (numbered_below n) (handlers t E)) → Forall (numbered_below n) fs →
  ∀ t, Forall (numbered_below n) (handlers t (store type fs E)).
Proof.
  intros HE Hfs t. rewrite handlers_store. by destruct (decide _).
Qed.

Lemma assign_ids h e E' :
  ids_ok h → (∀ t, Forall (numbered_below (wrappers h)) (handlers t E')) →
  ids_ok (assign h e E').
Proof.
  intros [Hls Hfired] HE'. split.
  - intros e' X t HX. replace (wrappers (assign h e E')) with (wrappers h) by (by destruct e).
    apply deref_assign_Some in HX as [->|HX]; [apply HE'|by eapply Hls].
  - intros w. rewrite fired_assign.
    replace (wrappers (assign h e E')) with (wrappers h) by (by destruct e). apply Hfired.
Qed.

Lemma add_at_ids h e type f prepend h' :
  add_at h e type f prepend = Some h' → ids_ok h →
  numbered_below (wrappers h) f → ids_ok h'.
Proof.
  intros (E & HE & _ & ->)%add_at_Some Hok Hf. apply assign_ids; [done|].
  destruct Hok as [Hls _]. apply store_below; [by eauto|].
  destruct prepend; [apply Forall_cons|apply Forall_app]; eauto.
Qed.

Lemma remove_at_ids h e type f h' :
  remove_at h e type f = Some h' → ids_ok h → ids_ok h'.
Proof.
  intros (E & E' & HE & Hrm & ->)%remove_at_Some Hok.
  apply assign_ids; [done|]. destruct Hok as [Hls _].
  apply removeListener_Some in Hrm as [->|(fs & Hfs & ->)]; [by eauto|].
  apply store_below; [by eauto|].
  apply Forall_forall. intros g Hg.
  apply remove_last_sublist in Hfs.
  pose proof (Hls _ _ type HE) as Hall. rewrite Forall_forall in Hall.
  apply Hall. by eapply elem_of_sublist.
Qed.

Lemma numbered_below_mono n n' f :
  numbered_below n f → (n ≤ n')%nat → numbered_below n' f.
Proof. unfold numbered_below. lia. Qed.

Lemma fresh_wrapper_ids h : ids_ok h → ids_ok (fresh_wrapper h).
Proof.
  intros [Hls Hfired]. split; simpl.
  - intros e E t HE. eapply Forall_impl; [by apply (Hls e)|].
    intros f Hf. eapply numbered_below_mono; [done|lia].
  - intros w Hw. apply Hfired in Hw. lia.
Qed.

Lemma invoke_ids args h f h' :
  invoke args h f = Some h' → ids_ok h → numbered_below (wrappers h) f →
  ids_ok h' ∧ wrappers h' = wrappers h.
Proof.
  destruct f as [c|w target type c]; simpl; intros Hinv Hok Hf.
  - injection Hinv as <-. by destruct Hok.
  - destruct (decide (w ∈ fired h)); [by injection Hinv as <-|].
    destruct (remove_at h target type _) as [h1|] eqn:Hrm; [|done].
    simpl in Hinv. injection Hinv as <-.
    pose proof (remove_at_ids _ _ _ _ _ Hrm Hok) as [Hls Hfired].
    apply remove_at_changed in Hrm as (_ & Hw & _). simpl.
    split; [|done]. split; simpl; [done|].
    intros w'. rewrite elem_of_union, elem_of_singleton.
    intros [->|Hw']; [|by apply Hfired].
    unfold numbered_below in Hf. simpl in Hf. lia.
Qed.

Lemma invoke_all_ids args h fs h' :
  invoke_all args h fs = Some h' → ids_ok h →
  Forall (numbered_below (wrappers h)) fs →
  ids_ok h' ∧ wrappers h' = wrappers h.
Proof.
  revert h. induction fs as [|f rest IH]; intros h Hall Hok Hfs; simpl in Hall.
  - by injection Hall as <-.
  - destruct (invoke args h f) as [h1|] eqn:Hinv; [|done]. simpl in Hall.
    apply Forall_cons in Hfs as [Hf Hrest].
    destruct (invoke_ids _ _ _ _ Hinv Hok Hf) as [Hok1 Hw1].
    destruct (IH _ Hall Hok1) as [Hok' Hw']; [by rewrite Hw1|].
    split; [done|congruence].
Qed.

Lemma emit_at_ids h e type args h' out :
  emit_at h e type args = Some (h', out) → ids_ok h →
  ids_ok h' ∧ wrappers h' = wrappers h.
Proof.
  unfold emit_at. intros Hemit Hok.
  destruct (deref h e) as [E|] eqn:HE; [|done]. cbn -[invoke_all] in Hemit.
  pose proof (proj1 Hok _ _ type HE) as Hfs.
  destruct (handlers type E) as [|f fs].
  - destruct (decide (type = "error")); by injection Hemit as <- _.
  - destruct (invoke_all args h (f :: fs)) as [h1|] eqn:Hall; [|done].
    cbn in Hemit. injection Hemit as <- _. by eapply invoke_all_ids.
Qed.

Lemma exec_ids h e m h' out :
  exec h e m = Some (h', out) → ids_ok h →
  ids_ok h' ∧ (wrappers h ≤ wrappers h')%nat.
Proof.
  intros Hexec Hok.
  destruct m; simpl in Hexec;
    try (apply this_Some in Hexec as [Hexec _]);
    try (apply read_Some in Hexec as [-> _]; by split).
  1-2,4: split;
    [eapply add_at_ids; [done|done|unfold numbered_below; simpl; lia]
    |apply add_at_changed in Hexec as (_ & -> & _); done].
  1-2: split;
    [eapply add_at_ids;
       [done|by apply fresh_wrapper_ids|unfold numbered_below; simpl; lia]
    |apply add_at_changed in Hexec as (_ & -> & _); simpl; lia].
  1-2: split; [by eapply remove_at_ids|];
       apply remove_at_changed in Hexec as (_ & -> & _); done.
  - destruct (deref h e) as [E|] eqn:HE; [|done]. simpl in Hexec.
    unfold Events.removeAllListeners in Hexec.
    destruct (has_listeners _ _); [done|].
    simpl in Hexec. injection Hexec as <-.
    split; [|by destruct e]. apply assign_ids; [done|].
    apply store_below; [|done]. destruct Hok as [Hls _]. eauto.
  - destruct (deref h e) as [E|] eqn:HE; [|done]. simpl in Hexec.
    unfold Events.setMaxListeners in Hexec.
    destruct (decide (n < 0)%Z); injection Hexec as <- <-; [by split|].
    split; [|by destruct e]. apply assign_ids; [done|].
    destruct Hok as [Hls _]. intros t. by apply (Hls e E t).
  - apply emit_at_ids in Hexec as [? ->]; done.
Qed.
Lemma copy_listeners_ids h r ev ls h' :
  copy_listeners h r ev ls = Some h' → ids_ok h →
  Forall (numbered_below (wrappers h)) ls →
  ids_ok h' ∧ wrappers h' = wrappers h.
Proof.
  revert h. induction ls as [|l rest IH]; intros h Hcopy Hok Hls; simpl in Hcopy.
  - by injection Hcopy as <-.
  - destruct (add_at h (Resource r) ev l false) as [h1|] eqn:Hadd; [|done].
    simpl in Hcopy.
    destruct (remove_at h1 Buffer ev l) as [h2|] eqn:Hrm; [|done].
    simpl in Hcopy. apply Forall_cons in Hls as [Hl Hrest].
    pose proof (add_at_ids _ _ _ _ _ _ Hadd Hok Hl) as Hok1.
    pose proof (remove_at_ids _ _ _ _ _ Hrm Hok1) as Hok2.
    apply add_at_changed in Hadd as (_ & Hw1 & _).
    apply remove_at_changed in Hrm as (_ & Hw2 & _).
    destruct (IH _ Hcopy Hok2) as [Hok' Hw']; [by rewrite Hw2, Hw1|].
    split; [done|congruence].
Qed.

Lemma copy_events_ids h r evs h' :
  copy_events h r evs = Some h' → ids_ok h → ids_ok h' ∧ wrappers h' = wrappers h.
Proof.
  revert h. induction evs as [|ev rest IH]; intros h Hcopy Hok; simpl in Hcopy.
  - by injection Hcopy as <-.
  - destruct (copy_listeners h r ev _) as [h1|] eqn:Hinner; [|done].
    simpl in Hcopy.
    apply copy_listeners_ids in Hinner as [Hok1 Hw1];
      [|done|by apply (proj1 Hok Buffer)].
    destruct (IH _ Hcopy Hok1) as [Hok' Hw']. split; [done|congruence].
Qed.

Lemma step_ids p a p' :
  step p a = Some p' → ids_ok (mem p) →
  ids_ok (mem p') ∧ (wrappers (mem p) ≤ wrappers (mem p'))%nat.
Proof.
  intros Hstep Hok. destruct a as [c|m|t result|t|r type args]; cbn [step] in Hstep.
  - injection Hstep as <-. unfold start, _initProvider_enter.
    destruct (provider p); by split.
  - unfold via_emitter in Hstep.
    destruct (exec (mem p) (_getEmitter p) m) as [[h out]|] eqn:Hexec; [|done].
    cbn in Hstep. injection Hstep as <-. cbn. by eapply exec_ids.
  - destruct (tasks p !! t) as [[c [|failure]]|]; try done.
    destruct (_initProvider_resume p result) as [[p1 failure]|] eqn:Hres; [|done].
    cbn in Hstep. injection Hstep as <-. cbn.
    destruct result as [r|e]; cbn in Hres; [|by injection Hres as <- _].
    destruct (resources (mem p) !! r) as [R0|]; [|done]. cbn in Hres.
    destruct (copy_events _ _ _) as [h|] eqn:Hcopy; [|done]. cbn in Hres.
    destruct (resources h !! r) as [R|] eqn:HR; [|done]. cbn in Hres.
    apply copy_events_ids in Hcopy as [Hok1 Hw1]; [|done].
    unfold Events.setMaxListeners in Hres.
    destruct (decide _); injection Hres as <- _; cbn; rewrite <- Hw1; [by split|].
    split; [|done]. apply (assign_ids h (Resource r)); [done|].
    intros ty. by apply (proj1 Hok1 (Resource r) R ty).
  - destruct (tasks p !! t) as [[c [|failure]]|]; try done.
    injection Hstep as <-. cbn. by destruct Hok.
  - destruct (emit_at (mem p) (Resource r) type args) as [[h out]|] eqn:Hemit; [|done].
    cbn in Hstep. injection Hstep as <-. cbn.
    apply emit_at_ids in Hemit as [? ->]; done.
Qed.

Lemma run_ids p tr p' :
  run p tr = Some p' → ids_ok (mem p) →
  ids_ok (mem p') ∧ (wrappers (mem p) ≤ wrappers (mem p'))%nat.
Proof.
  revert p. induction tr as [|a rest IH]; intros p Hrun Hok; cbn [run] in Hrun.
  - injection Hrun as <-. by split.
  - destruct (step p a) as [p1|] eqn:Hstep; [|done]. cbn in Hrun.
    destruct (step_ids _ _ _ Hstep Hok) as [Hok1 Hle1].
    destruct (IH _ Hrun Hok1) as [Hok' Hle']. split; [done|lia].
Qed.

Lemma lookup_event_elem type evs fs :
  lookup_event type evs = Some fs → (type, fs) ∈ evs.
Proof.
  induction evs as [|[k old] rest IH]; simpl; [done|].
  destruct (decide (k = type)) as [->|].
  - intros [= ->]. apply list_elem_of_here.
  - intros H. by apply list_elem_of_further, IH.
Qed.

Lemma init_ids rs : ids_ok (mem (init rs)).
Proof.
  split; simpl; [|intros w Hw; by apply elem_of_empty in Hw].
  intros e E type HE. destruct e as [|r]; simpl in HE.
  - injection HE as <-. apply Forall_nil_2.
  - apply Forall_forall. intros f Hf. unfold numbered_below, first_free.
    apply max_list_elem_of_le, list_elem_of_fmap. exists f. split; [done|].
    apply list_elem_of_bind. exists E. split; [|by eapply list_elem_of_lookup_2].
    unfold handlers in Hf.
    destruct (lookup_event type (_events E)) as [fs|] eqn:Hfs;
      [|by apply elem_of_nil in Hf].
    apply list_elem_of_bind. exists (type, fs). split; [done|].
    by apply lookup_event_elem.
Qed.

Lemma reachable_ids p : reachable p → ids_ok (mem p).
Proof. intros (rs & tr & Hrun). eapply run_ids; [done|apply init_ids]. Qed.

(** The wrapper the next [once] creates has not run anything. *)
Lemma next_wrapper_unused p :
  reachable p → deliveries (wrappers (mem p)) (log (mem p)) = 0.
Proof.
  intros Hreach. rewrite (ok_once _ (reachable_ok _ Hreach)).
  rewrite decide_False; [done|].
  intros Hw%(proj2 (reachable_ids _ Hreach)). lia.
Qed.
End WrapperNumbers.

(** ** Draining [_emitter] *)


Section Draining.
Implicit Types (h : heap) (fs : list fn).

Lemma matches_unambiguous fs l g :
  unambiguous fs → l ∈ fs → g ∈ fs → matches l g = true → g = l.
Proof.
  intros Hun Hl Hg. unfold matches.
  destruct (bool_decide (g = l)) eqn:Heq; [by apply bool_decide_eq_true in Heq|].
  simpl. destruct g as [c|w target type c]; [done|].
  intros ->%bool_decide_eq_true. by destruct (Hun c w target type).
Qed.

Lemma remove_last_Permutation l fs fs' :
  remove_last l fs = Some fs' → (∀ g, g ∈ fs → matches l g = true → g = l) →
  fs ≡ₚ l :: fs'.
Proof.
  revert fs'. induction fs as [|g rest IH]; intros fs' Hrm Hexact; simpl in Hrm; [done|].
  destruct (remove_last l rest) as [rest'|] eqn:Hrest.
  - injection Hrm as <-. rewrite (IH rest' eq_refl).
    + apply Permutation_swap.
    + intros g' Hg'. apply Hexact. by apply list_elem_of_further.
  - destruct (matches l g) eqn:Hm; [|done]. injection Hrm as <-.
    rewrite (Hexact g); [done|apply list_elem_of_here|done].
Qed.

Lemma remove_last_None l fs : l ∈ fs → remove_last l fs ≠ None.
Proof.
  induction fs as [|g rest IH]; [by intros ?%elem_of_nil|].
  intros [Heq|Hin]%elem_of_cons; simpl.
  - subst g. destruct (remove_last l rest); [done|].
    unfold matches. by rewrite bool_decide_true.
  - destruct (remove_last l rest); [done|]. by destruct (IH Hin).
Qed.

(** The inner loop empties the list of the event it copies, provided the
    list is unambiguous. *)
Lemma copy_listeners_drains h r ev ls h' :
  copy_listeners h r ev ls = Some h' →
  listeners_of h Buffer ev ≡ₚ ls → unambiguous ls →
  listeners_of h' Buffer ev = [].
Proof.
  revert h. induction ls as [|l rest IH]; intros h Hcopy Hperm Hun; simpl in Hcopy.
  - injection Hcopy as <-. by apply Permutation_nil_r.
  - destruct (add_at h (Resource r) ev l false) as [h1|] eqn:Hadd; [|done].
    simpl in Hcopy.
    destruct (remove_at h1 Buffer ev l) as [h2|] eqn:Hrm; [|done].
    simpl in Hcopy.
    assert (listeners_of h1 Buffer ev = listeners_of h Buffer ev) as H1.
    { rewrite (add_at_listeners _ _ _ _ _ _ _ Hadd). by rewrite decide_False by (by intros [? _]). }
    apply (IH h2 Hcopy).
    + apply remove_at_Some in Hrm as (E & E' & HE & Hrm & ->).
      simpl in HE. injection HE as <-.
      change (listeners_of h1 Buffer ev) with (handlers ev (_emitter h1)) in H1.
      change (listeners_of h Buffer ev) with (handlers ev (_emitter h)) in *.
      unfold listeners_of. simpl.
      unfold Events.removeListener in Hrm.
      destruct (remove_last l (handlers ev (_emitter h1))) as [fs|] eqn:Hfs.
      * destruct (has_listeners _ _); [done|]. injection Hrm as <-.
        rewrite handlers_store_eq.
        apply remove_last_Permutation in Hfs.
        -- rewrite H1, Hperm in Hfs. by apply (inj (cons l)) in Hfs.
        -- intros g Hg. rewrite H1, Hperm in Hg.
           apply matches_unambiguous with (fs := l :: rest);
             [done|apply list_elem_of_here|done].
      * exfalso. apply (remove_last_None l (handlers ev (_emitter h1))); [|done].
        rewrite H1, Hperm. apply list_elem_of_here.
    + intros c w target type Hc Hw. apply (Hun c w target type); by apply list_elem_of_further.
Qed.
Lemma copy_events_untouched h r evs h' type :
  copy_events h r evs = Some h' → type ∉ evs →
  listeners_of h' Buffer type = listeners_of h Buffer type.
Proof.
  revert h. induction evs as [|ev rest IH]; intros h Hcopy Hnin; simpl in Hcopy.
  - by injection Hcopy as <-.
  - destruct (copy_listeners h r ev _) as [h1|] eqn:Hinner; [|done].
    simpl in Hcopy. apply not_elem_of_cons in Hnin as [Hne Hnin].
    apply copy_listeners_spec in Hinner as (_ & _ & Hother & _).
    rewrite (IH _ Hcopy Hnin). by apply Hother.
Qed.

Lemma copy_events_drains h r evs h' :
  copy_events h r evs = Some h' → NoDup evs →
  (∀ ev, unambiguous (listeners_of h Buffer ev)) →
  ∀ ev, ev ∈ evs → listeners_of h' Buffer ev = [].
Proof.
  revert h. induction evs as [|ev rest IH]; intros h Hcopy Hnd Hun ev' Hin; simpl in Hcopy.
  - by apply elem_of_nil in Hin.
  - destruct (copy_listeners h r ev _) as [h1|] eqn:Hinner; [|done].
    simpl in Hcopy. apply NoDup_cons in Hnd as [Hev Hnd].
    pose proof (copy_listeners_spec _ _ _ _ _ Hinner) as (_ & _ & Hother & _).
    apply elem_of_cons in Hin as [->|Hin].
    + rewrite (copy_events_untouched _ _ _ _ _ Hcopy Hev).
      eapply copy_listeners_drains; [exact Hinner|done|apply Hun].
    + apply (IH h1 Hcopy Hnd); [|done].
      intros ev''. destruct (decide (ev'' = ev)) as [->|Hne].
      * erewrite copy_listeners_drains; [|exact Hinner|done|apply Hun].
        intros c w target type Hc. by apply elem_of_nil in Hc.
      * rewrite Hother by done. apply Hun.
Qed.

(** When no list of [_emitter] is ambiguous, a resolved factory promise
    leaves [_emitter] without listeners. *)
Lemma migration_drains p t r p' :
  reachable p → step p (FactorySettles t (inl r)) = Some p' →
  (∀ ev, unambiguous (Events.rawListeners (_emitter (mem p)) ev)) →
  ∀ ev, Events.rawListeners (_emitter (mem p')) ev = [].
Proof.
  intros Hok%reachable_ok Hstep Hun ev. cbn [step] in Hstep.
  destruct (tasks p !! t) as [[c [|failure]]|]; try done.
  destruct (_initProvider_resume p (inl r)) as [[p1 failure]|] eqn:Hres; [|done].
  cbn in Hstep. injection Hstep as <-. cbn. cbn in Hres.
  destruct (resources (mem p) !! r) as [R0|]; [|done]. cbn in Hres.
  destruct (copy_events _ _ _) as [h|] eqn:Hcopy; [|done]. cbn in Hres.
  destruct (resources h !! r) as [R|]; [|done]. cbn in Hres.
  assert (Events.rawListeners (_emitter h) ev = []) as Hempty.
  { change (listeners_of h Buffer ev = []).
    destruct (decide (ev ∈ Events.eventNames (_emitter (mem p)))) as [Hin|Hnin].
    - eapply copy_events_drains; [exact Hcopy|by apply eventNames_NoDup, Hok|done|done].
    - rewrite (copy_events_untouched _ _ _ _ _ Hcopy Hnin).
      by apply eventNames_absent. }
  destruct (Events.setMaxListeners R _); by injection Hres as <- _.
Qed.
End Draining.

(** * The properties of the specification *)

(** C1 (the code does otherwise): N JSON-RPC calls issued before the
    factory's promise resolves invoke the factory N times, not once.  Every
    call finds [provider] undefined and runs [this._providerFactory()]
    itself; nothing records the pending promise. *)
Theorem concurrent_calls_each_invoke_factory (rs : list EventEmitter) (cs : list remote_call) :
  ∃ p, run (init rs) (Call <$> cs) = Some p ∧
       provider p = None ∧ factoryCalls p = length cs.
Proof.
  destruct (calls_before_construction (init rs) cs) as (p & Hrun & Hp & _ & Hf); [done|].
  exists p. split_and!; done.
Qed.

(** Two requests in the same tick, two resources built; the listener
    recorded before the calls ends up on the first resource while the
    instance talks to the second. *)
Example two_requests_two_resources :
  ∃ p, run (init [create; create])
           [Emitter (On "connect" 0); Call (Request 1); Call (Request 2);
            FactorySettles 0 (inl 0); FactorySettles 1 (inl 1)] = Some p ∧
       factoryCalls p = 2 ∧ provider p = Some 1 ∧
       listeners_of (mem p) (Resource 0) "connect" = [Callback 0] ∧
       listeners_of (mem p) (Resource 1) "connect" = [].
Proof. eexists. split; [reflexivity|]. by vm_compute. Qed.

(** C2 (the code does otherwise): a listener registered with [once] before
    construction is copied with [provider.on(event, wrapper)].  When the
    event is emitted the wrapper runs the listener, but it unregisters itself
    from [_emitter], its [target], so it stays in the provider's list:
    [listenerCount] is 1, [listeners] still shows the callback and a second
    [emit] still returns true.  Registered with [once] after construction
    the same listener is gone after the event. *)
Theorem once_listener_not_removed_after_migration :
  ∃ p p' q,
    run (init [create])
        [Emitter (Once "e" 0); Call (Request 1); FactorySettles 0 (inl 0);
         Emitter (Emit "e" 7)] = Some p ∧
    log (mem p) = [Invoked 0 (Some 0) 7] ∧
    listenerCount p "e" = Some (p, Returned (VNum 1)) ∧
    listeners p "e" = Some (p, Returned (VFns [Callback 0])) ∧
    emit p "e" 8 = Some (p', Returned (VBool true)) ∧
    log (mem p') = [Invoked 0 (Some 0) 7] ∧
    run (init [create])
        [Call (Request 1); FactorySettles 0 (inl 0); Emitter (Once "e" 0);
         Emitter (Emit "e" 7)] = Some q ∧
    log (mem q) = [Invoked 0 (Some 0) 7] ∧
    listenerCount q "e" = Some (q, Returned (VNum 0)) ∧
    listeners q "e" = Some (q, Returned (VFns [])) ∧
    emit q "e" 8 = Some (q, Returned (VBool false)).
Proof. do 3 eexists. split_and!; reflexivity. Qed.

(** C3 (the code does otherwise): a listener is registered with [once]
    and two requests are issued before the factory resolves.  The first
    factory promise to resolve takes the wrapper out of [_emitter] and puts
    it on resource 0; the second finds [_emitter] empty and makes resource 1
    the provider.  The instance then lists no listener for the event, every
    [emit] through it answers false, and the listener has not run after
    three events: the log holds the two forwarded requests and nothing else.
    With a single request the same events run it once. *)
Theorem once_listener_stranded_by_pending_call :
  ∃ p q,
    run (init [create; create])
        [Emitter (Once "e" 0); Call (Request 1); Call (Request 2);
         FactorySettles 0 (inl 0); FactorySettles 1 (inl 1);
         Continue 0; Continue 1] = Some p ∧
    provider p = Some 1 ∧
    listeners_of (mem p) (Resource 0) "e" = [OnceWrapper 0 Buffer "e" 0] ∧
    listeners_of (mem p) (Resource 1) "e" = [] ∧
    listenerCount p "e" = Some (p, Returned (VNum 0)) ∧
    emit p "e" 7 = Some (p, Returned (VBool false)) ∧
    run p [Emitter (Emit "e" 7); Emitter (Emit "e" 8); Emitter (Emit "e" 9)] = Some p ∧
    log (mem p) = [Forwarded 1 (Request 1); Forwarded 1 (Request 2)] ∧
    deliveries 0 (log (mem p)) = 0 ∧
    run (init [create; create])
        [Emitter (Once "e" 0); Call (Request 1); FactorySettles 0 (inl 0); Continue 0;
         Emitter (Emit "e" 7); Emitter (Emit "e" 8); Emitter (Emit "e" 9)] = Some q ∧
    log (mem q) = [Forwarded 0 (Request 1); Invoked 0 (Some 0) 7] ∧
    deliveries 0 (log (mem q)) = 1.
Proof.
  do 2 eexists.
  repeat (split; [vm_compute; reflexivity|]). vm_compute; reflexivity.
Qed.

(** C4: the factory rejects on the first attempt.  [provider] is still
    undefined and the heap, [_emitter] included, is what the emitter methods
    called in the meantime have made of it, as if no attempt had been made.
    The next JSON-RPC call invokes the factory again, and when that resolves
    the provider receives, behind its own listeners and in order, every
    listener [_emitter] holds by then: those recorded before the first
    attempt, while it was pending, and between the two attempts. *)
Theorem construction_retried_after_failure
    (p : LazyInitializationProvider) (c1 c2 : remote_call) (e : nat)
    (ms0 ms : list emitter_call) (r : nat) (p' : LazyInitializationProvider) :
  reachable p → provider p = None →
  let t := spawned p in
  let failed := [Call c1] ++ (Emitter <$> ms0) ++ [FactorySettles t (inr e)] in
  run p (failed ++ (Emitter <$> ms) ++ [Call c2; FactorySettles (S t) (inl r)]) = Some p' →
  ∃ p1 pa pb,
    run p failed = Some p1 ∧ run p (Emitter <$> ms0) = Some pa ∧
    provider p1 = None ∧ mem p1 = mem pa ∧ factoryCalls p1 = S (factoryCalls p) ∧
    tasks p1 !! t = Some (c1, AwaitingInit (Some (FactoryFailure e))) ∧
    run p (Emitter <$> (ms0 ++ ms)) = Some pb ∧ provider pb = None ∧
    factoryCalls p' = S (S (factoryCalls p)) ∧ provider p' = Some r ∧
    log (mem p') = log (mem pb) ∧
    ∀ type, listeners_of (mem p') (Resource r) type
            = listeners_of (mem pb) (Resource r) type ++ listeners_of (mem pb) Buffer type.
Proof.
  intros Hreach Hp t failed Hrun.
  (* the call and the emitter methods while the factory is pending *)
  destruct (start_uninitialized p c1 Hp) as (Hp0 & Hf0 & Hm0 & Hs0 & Ht0).
  rewrite run_app in Hrun.
  destruct (run p failed) as [p1|] eqn:Hfailed; [|done].
  cbn [mbind option_bind] in Hrun.
  pose proof Hfailed as Hrun1. unfold failed in Hrun1.
  rewrite run_app, run_one in Hrun1. cbn [step mbind option_bind] in Hrun1.
  rewrite run_app in Hrun1.
  destruct (run (start p c1) (Emitter <$> ms0)) as [p0|] eqn:Hrun0; [|done].
  cbn [mbind option_bind] in Hrun1. rewrite run_one in Hrun1.
  assert (provider p = provider (start p c1)) as Hpp0 by (by rewrite Hp).
  pose proof (emitter_run_frame ms0 _ p0 p Hrun0 Hpp0 (eq_sym Hm0))
    as (Hp0' & Hf0' & Ht0' & _ & pa & Hruna & Hma & Hpa).
  (* the rejection *)
  assert (tasks p0 !! t = Some (c1, AwaitingFactory)) as Ht.
  { rewrite Ht0', Ht0. apply lookup_insert_eq. }
  rewrite (settle_rejected _ _ e _ Ht) in Hrun1. injection Hrun1 as Hp1.
  assert (provider p1 = None ∧ mem p1 = mem p0 ∧ factoryCalls p1 = S (factoryCalls p) ∧
          tasks p1 !! t = Some (c1, AwaitingInit (Some (FactoryFailure e))))
    as (Hp1n & Hm1 & Hf1 & Ht1).
  { rewrite <- Hp1. cbn. rewrite lookup_insert_eq. split_and!; congruence. }
  (* the emitter methods between the attempts *)
  rewrite run_app in Hrun.
  destruct (run p1 (Emitter <$> ms)) as [p2|] eqn:Hrun2; [|done].
  cbn [mbind option_bind] in Hrun.
  assert (provider pa = provider p1) as Hpa1 by congruence.
  assert (mem pa = mem p1) as Hma1 by congruence.
  pose proof (emitter_run_frame ms p1 p2 pa Hrun2 Hpa1 Hma1)
    as (Hp2 & Hf2 & _ & _ & pb & Hrunb & Hmb & Hpb).
  assert (run p (Emitter <$> (ms0 ++ ms)) = Some pb) as Hrunab.
  { rewrite fmap_app, run_app, Hruna. done. }
  (* the second attempt *)
  assert (provider p2 = None) as Hp2' by congruence.
  destruct (start_uninitialized p2 c2 Hp2') as (_ & Hf3 & Hm3 & _).
  change (run p2 [Call c2; FactorySettles (S t) (inl r)])
    with (run (start p2 c2) [FactorySettles (S t) (inl r)]) in Hrun.
  rewrite run_one in Hrun.
  assert (reachable (start p2 c2)) as Hreach3.
  { apply (reachable_run p (failed ++ (Emitter <$> ms) ++ [Call c2])); [done|].
    rewrite run_app, Hfailed. cbn [mbind option_bind].
    rewrite run_app, Hrun2. done. }
  apply settle_resolved in Hrun
    as (c & _ & _ & Hp' & Hf' & Hl' & _ & _ & Hls); [|by apply reachable_ok].
  exists p1, pa, pb. split_and!; [done|done|done|congruence|done|done|done|congruence|..].
  - rewrite Hf', Hf3, Hf2, Hf1. done.
  - done.
  - by rewrite Hl', Hm3, Hmb.
  - intros type. by rewrite Hls, Hm3, Hmb.
Qed.

Lemma construction_retried_after_failure_witness :
  let p := init [mkEmitter [("data", [Callback 9])] None] in
  let failed := [Call (Request 7)] ++ (Emitter <$> [On "data" 3])
                ++ [FactorySettles 0 (inr 5)] in
  let p' := mkProvider (Some 0)
              (mkHeap create
                 [mkEmitter [("data", [Callback 9; Callback 3;
                                       OnceWrapper 0 Buffer "data" 2; Callback 1])]
                            (Some 10%Z)] ∅ 1 [])
              2 {[0 := (Request 7, AwaitingInit (Some (FactoryFailure 5)));
                  1 := (Send "eth_chainId" 8, AwaitingInit None)]} 2 in
  ∃ p1 pa pb,
    run p failed = Some p1 ∧ run p (Emitter <$> [On "data" 3]) = Some pa ∧
    provider p1 = None ∧ mem p1 = mem pa ∧ factoryCalls p1 = 1 ∧
    tasks p1 !! 0 = Some (Request 7, AwaitingInit (Some (FactoryFailure 5))) ∧
    run p (Emitter <$> ([On "data" 3] ++ [Once "data" 2; On "data" 1])) = Some pb ∧
    provider pb = None ∧
    factoryCalls p' = 2 ∧ provider p' = Some 0 ∧
    log (mem p') = log (mem pb) ∧
    ∀ type, listeners_of (mem p') (Resource 0) type
            = listeners_of (mem pb) (Resource 0) type ++ listeners_of (mem pb) Buffer type.
Proof.
  apply (construction_retried_after_failure
           (init [mkEmitter [("data", [Callback 9])] None])
           (Request 7) (Send "eth_chainId" 8) 5
           [On "data" 3] [Once "data" 2; On "data" 1] 0).
  - exists [mkEmitter [("data", [Callback 9])] None], []. reflexivity.
  - reflexivity.
  - reflexivity.
Defined.

(** C5: an EventEmitter method of the class ([addListener], [on], [once],
    [prependListener], [prependOnceListener], [removeListener], [off],
    [removeAllListeners], [setMaxListeners], [getMaxListeners], [listeners],
    [rawListeners], [emit], [eventNames], [listenerCount]) leaves
    [provider], the factory and the pending calls alone: it is the same
    method run on the emitter [_getEmitter] selects.  It throws only what
    that method throws for its arguments, with a provider or without; on a
    new instance every one of them returns or throws exactly that. *)
Theorem emitter_methods_do_not_initialize
    (p : LazyInitializationProvider) (m : emitter_call)
    (p' : LazyInitializationProvider) (out : outcome) :
  via_emitter p m = Some (p', out) →
  provider p' = provider p ∧ factoryCalls p' = factoryCalls p ∧
  tasks p' = tasks p ∧ spawned p' = spawned p ∧
  exec (mem p) (_getEmitter p) m = Some (mem p', out) ∧
  (∀ x, out = Thrown x →
        (∃ n, m = SetMaxListeners n ∧ (n < 0)%Z ∧ x = RangeError) ∨
        (∃ args, m = Emit "error" args ∧ x = Unhandled args ∧
                 listeners_of (mem p) (_getEmitter p) "error" = [])) ∧
  (∀ rs, ∃ q o, via_emitter (init rs) m = Some (q, o) ∧ factoryCalls q = 0 ∧
                provider q = None).
Proof.
  unfold via_emitter. intros Hvia.
  destruct (exec (mem p) (_getEmitter p) m) as [[h o]|] eqn:Hexec; [|done].
  cbn in Hvia. injection Hvia as <- <-. cbn. split_and!; try done.
  - intros x ->. by eapply exec_Thrown.
  - intros rs. clear Hexec.
    destruct m as [| | | | | | | |n| | | |type args| |]; cbn; try (by eexists _, _).
    + unfold Events.setMaxListeners. destruct (decide (n < 0)%Z); by eexists _, _.
    + destruct (decide (type = "error")); by eexists _, _.
Qed.

Lemma emitter_methods_do_not_initialize_witness :
  let p := init [create] in
  let p' := mkProvider None
              (mkHeap (mkEmitter [("data", [OnceWrapper 0 Buffer "data" 5])] None)
                 [create] ∅ 1 []) 0 ∅ 0 in
  provider p' = provider p ∧ factoryCalls p' = factoryCalls p ∧
  tasks p' = tasks p ∧ spawned p' = spawned p ∧
  exec (mem p) (_getEmitter p) (Once "data" 5) = Some (mem p', Returned VThis) ∧
  (∀ x, Returned VThis = Thrown x →
        (∃ n, Once "data" 5 = SetMaxListeners n ∧ (n < 0)%Z ∧ x = RangeError) ∨
        (∃ args, Once "data" 5 = Emit "error" args ∧ x = Unhandled args ∧
                 listeners_of (mem p) (_getEmitter p) "error" = [])) ∧
  (∀ rs, ∃ q o, via_emitter (init rs) (Once "data" 5) = Some (q, o) ∧
                factoryCalls q = 0 ∧ provider q = None).
Proof.
  apply (emitter_methods_do_not_initialize (init [create]) (Once "data" 5)).
  reflexivity.
Defined.

(** C6: [sendAsync(payload, callback)] on an instance without provider.
    The call itself returns without any observable effect.  When the
    factory rejects with [e], the continuation calls [callback(e, null)]:
    that is the only thing observed, nothing is forwarded to a resource, no
    promise of the caller rejects and [provider] stays undefined.  When the
    factory resolves to [r], the continuation forwards the same payload and
    callback to [r.sendAsync]. *)
Theorem sendAsync_reports_failure_through_callback
    (p : LazyInitializationProvider) (payload callback : nat) :
  reachable p → provider p = None →
  let p0 := sendAsync p payload callback in
  let t := spawned p in
  mem p0 = mem p ∧
  (∀ e, ∃ p', run p0 [FactorySettles t (inr e); Continue t] = Some p' ∧
              log (mem p') = log (mem p) ++ [CallbackInvoked callback (FactoryFailure e)] ∧
              provider p' = None ∧
              resources (mem p') = resources (mem p)) ∧
  (∀ r p', run p0 [FactorySettles t (inl r); Continue t] = Some p' →
           provider p' = Some r ∧
           log (mem p') = log (mem p) ++ [Forwarded r (SendAsync payload callback)]).
Proof.
  intros Hreach Hp p0 t.
  destruct (start_uninitialized p (SendAsync payload callback) Hp)
    as (Hp0 & _ & Hm0 & _ & Ht0).
  fold (sendAsync p payload callback) in Hp0, Hm0, Ht0. fold p0 in Hp0, Hm0, Ht0.
  assert (tasks p0 !! t = Some (SendAsync payload callback, AwaitingFactory)) as Ht.
  { rewrite Ht0. apply lookup_insert_eq. }
  split_and!; [done|..].
  - intros e. eexists. split.
    + cbn [run]. rewrite (settle_rejected _ _ _ _ Ht). cbn [mbind option_bind].
      cbn [run step tasks]. rewrite lookup_insert_eq. cbn. reflexivity.
    + cbn. rewrite Hm0, Hp0. done.
  - intros r p' Hrun. cbn [run] in Hrun.
    destruct (step p0 _) as [p1|] eqn:Hstep; [|done].
    cbn [mbind option_bind] in Hrun.
    apply settle_resolved in Hstep as (c & Hc & Ht1 & Hp1 & _ & Hl1 & _).
    2:{ apply reachable_ok. eapply reachable_run; [exact Hreach|].
        instantiate (1 := [Call (SendAsync payload callback)]). reflexivity. }
    rewrite Ht in Hc. injection Hc as <-.
    cbn [step] in Hrun. rewrite Ht1, lookup_insert_eq in Hrun.
    cbn in Hrun. injection Hrun as <-. cbn.
    rewrite Hp1, Hl1, Hm0. done.
Qed.

Lemma sendAsync_reports_failure_through_callback_witness :
  let p0 := sendAsync (init [create]) 3 4 in
  mem p0 = mem (init [create]) ∧
  (∀ e, ∃ p', run p0 [FactorySettles 0 (inr e); Continue 0] = Some p' ∧
              log (mem p') = [] ++ [CallbackInvoked 4 (FactoryFailure e)] ∧
              provider p' = None ∧
              resources (mem p') = [create]) ∧
  (∀ r p', run p0 [FactorySettles 0 (inl r); Continue 0] = Some p' →
           provider p' = Some r ∧
           log (mem p') = [] ++ [Forwarded r (SendAsync 3 4)]).
Proof.
  apply (sendAsync_reports_failure_through_callback (init [create]) 3 4).
  - exists [create], []. reflexivity.
  - reflexivity.
Defined.

(** C7 (the code does otherwise): the value set before construction is
    written to a provider once per factory promise that resolves, not once.
    Two requests are issued before the factory resolves.  The first promise
    to resolve writes 25 to resource 0; the caller then sets 50 through the
    instance; the second promise resolves, [provider] becomes resource 1 and
    [_initProvider] writes the 25 of [_emitter] again.  The instance reports
    25, and the 50 is left on a resource it no longer uses. *)
Theorem max_listeners_written_by_each_pending_call :
  ∃ p1 p2 p3,
    run (init [create; create])
        [Emitter (SetMaxListeners 25); Call (Request 1); Call (Request 2);
         FactorySettles 0 (inl 0); Continue 0] = Some p1 ∧
    provider p1 = Some 0 ∧
    getMaxListeners p1 = Some (p1, Returned (VNum 25)) ∧
    setMaxListeners p1 50 = Some (p2, Returned VThis) ∧
    getMaxListeners p2 = Some (p2, Returned (VNum 50)) ∧
    step p2 (FactorySettles 1 (inl 1)) = Some p3 ∧
    provider p3 = Some 1 ∧
    getMaxListeners p3 = Some (p3, Returned (VNum 25)) ∧
    _maxListeners <$> resources (mem p3) = [Some 50%Z; Some 25%Z] ∧
    _maxListeners (_emitter (mem p3)) = Some 25%Z.
Proof.
  do 3 eexists.
  repeat (split; [vm_compute; reflexivity|]). vm_compute; reflexivity.
Qed.

(** C8 (the code does otherwise): the same callback is registered with [on]
    and then with [once] for one event.  Copying the first entry calls
    [_emitter.removeListener(event, callback)], which scans from the end and
    removes the wrapper, whose [listener] is that callback; copying the
    wrapper then finds nothing to remove.  The plain entry stays in
    [_emitter] after construction. *)
Theorem buffer_not_drained :
  ∃ p,
    run (init [create])
        [Emitter (On "e" 0); Emitter (Once "e" 0); Call (Request 1);
         FactorySettles 0 (inl 0)] = Some p ∧
    provider p = Some 0 ∧
    Events.rawListeners (_emitter (mem p)) "e" = [Callback 0] ∧
    listeners_of (mem p) (Resource 0) "e" = [Callback 0; OnceWrapper 0 Buffer "e" 0].
Proof. eexists. split_and!; reflexivity. Qed.

(** C9 (the code does otherwise): two requests are issued before the
    factory resolves.  The first factory promise resolves and [provider] is
    assigned resource 0; then the second resolves and the continuation of
    the second request assigns resource 1.  Both requests and every later
    emitter method go to resource 1. *)
Theorem provider_reassigned_by_pending_call :
  ∃ p1 p2 p3,
    run (init [create; create])
        [Call (Request 1); Call (Request 2); FactorySettles 0 (inl 0)] = Some p1 ∧
    provider p1 = Some 0 ∧
    step p1 (FactorySettles 1 (inl 1)) = Some p2 ∧
    provider p2 = Some 1 ∧ factoryCalls p2 = 2 ∧ _getEmitter p2 = Resource 1 ∧
    run p2 [Continue 0; Continue 1] = Some p3 ∧
    log (mem p3) = [Forwarded 1 (Request 1); Forwarded 1 (Request 2)].
Proof. do 3 eexists. split_and!; reflexivity. Qed.



(** * Further properties of the code *)

(** ** The log, and calls that stay pending *)

Section Further.
Implicit Types (p : LazyInitializationProvider) (h : heap) (e : emitter_ref).

Lemma log_assign h e E : log (assign h e E) = log h.
Proof. by destruct e. Qed.

Lemma invoke_log args h f h' :
  invoke args h f = Some h' → ∃ l, log h' = log h ++ l ∧ Forall is_run l.
Proof.
  destruct f as [c|w target type c]; simpl; intros Hinv.
  - injection Hinv as <-. simpl. eexists. split; [done|]. by repeat constructor.
  - destruct (decide (w ∈ fired h)).
    + injection Hinv as <-. exists []. by rewrite app_nil_r.
    + destruct (remove_at h target type _) as [h1|] eqn:Hrm; [|done].
      simpl in Hinv. injection Hinv as <-. simpl.
      apply remove_at_changed in Hrm as (_ & _ & -> & _).
      eexists. split; [done|]. by repeat constructor.
Qed.

Lemma invoke_all_log args h fs h' :
  invoke_all args h fs = Some h' → ∃ l, log h' = log h ++ l ∧ Forall is_run l.
Proof.
  revert h. induction fs as [|f rest IH]; intros h Hall; simpl in Hall.
  - injection Hall as <-. exists []. by rewrite app_nil_r.
  - destruct (invoke args h f) as [h1|] eqn:Hinv; [|done]. simpl in Hall.
    apply invoke_log in Hinv as (l1 & Hl1 & Hr1).
    apply IH in Hall as (l2 & Hl2 & Hr2).
    exists (l1 ++ l2). rewrite Hl2, Hl1, app_assoc. split; [done|by apply Forall_app].
Qed.

Lemma emit_at_log h e type args h' out :
  emit_at h e type args = Some (h', out) →
  ∃ l, log h' = log h ++ l ∧ Forall is_run l.
Proof.
  unfold emit_at. intros Hemit.
  destruct (deref h e) as [E|]; [|done]. cbn -[invoke_all] in Hemit.
  destruct (handlers type E) as [|f fs].
  - exists []. rewrite app_nil_r.
    destruct (decide (type = "error")); by injection Hemit as <- _.
  - destruct (invoke_all args h (f :: fs)) as [h1|] eqn:Hall; [|done].
    cbn in Hemit. injection Hemit as <- _. by eapply invoke_all_log.
Qed.

Lemma exec_log h e m h' out :
  exec h e m = Some (h', out) → ∃ l, log h' = log h ++ l ∧ Forall is_run l.
Proof.
  intros Hexec.
  destruct m; simpl in Hexec;
    try (apply this_Some in Hexec as [Hexec _]);
    try (apply read_Some in Hexec as [-> _]; exists []; by rewrite app_nil_r);
    try (first [apply add_at_changed in Hexec|apply remove_at_changed in Hexec];
         destruct Hexec as (_ & _ & -> & _); exists []; by rewrite app_nil_r).
  - destruct (deref h e) as [E|]; [|done]. simpl in Hexec.
    destruct (Events.removeAllListeners E _) as [E'|]; [|done].
    simpl in Hexec. injection Hexec as <-.
    exists []. by rewrite log_assign, app_nil_r.
  - destruct (deref h e) as [E|]; [|done]. simpl in Hexec.
    destruct (Events.setMaxListeners E n); injection Hexec as <- _;
      exists []; by rewrite ?log_assign, app_nil_r.
  - by eapply emit_at_log.
Qed.

(** A call that is suspended stays as it is until its own resumption. *)
Lemma pending_step p a p' t x :
  step p a = Some p' → tasks p !! t = Some x → (t < spawned p)%nat →
  a ≠ Continue t → (x.2 = AwaitingFactory → ∀ result, a ≠ FactorySettles t result) →
  tasks p' !! t = Some x ∧ (t < spawned p')%nat.
Proof.
  intros Hstep Ht Hlt Hc Hf.
  destruct a as [c|m|t' result|t'|r type args]; cbn [step] in Hstep.
  - injection Hstep as <-. unfold start, _initProvider_enter.
    destruct (provider p); cbn; (split; [|lia]);
      rewrite lookup_insert_ne by lia; done.
  - apply (emitter_step p m) in Hstep as (_ & _ & _ & _ & -> & ->). done.
  - destruct (tasks p !! t') as [[c [|failure]]|] eqn:Ht'; try done.
    destruct (_initProvider_resume p result) as [[p1 failure]|] eqn:Hres; [|done].
    cbn in Hstep. injection Hstep as <-. cbn.
    assert (tasks p1 = tasks p ∧ spawned p1 = spawned p) as [-> ->].
    { destruct result as [r|e0]; cbn in Hres; [|by injection Hres as <- _].
      destruct (resources (mem p) !! r); [|done]. cbn in Hres.
      destruct (copy_events _ _ _) as [h|]; [|done]. cbn in Hres.
      destruct (resources h !! r) as [R|]; [|done]. cbn in Hres.
      destruct (Events.setMaxListeners R _); by injection Hres as <- _. }
    split; [|done]. rewrite lookup_insert_ne; [done|].
    intros ->. rewrite Ht in Ht'. injection Ht' as ->.
    by destruct (Hf eq_refl result).
  - destruct (tasks p !! t') as [[c [|failure]]|] eqn:Ht'; try done.
    injection Hstep as <-. cbn. split; [|done].
    rewrite lookup_delete_ne; [done|]. intros ->. by destruct Hc.
  - destruct (emit_at _ _ _ _) as [[h out]|]; [|done].
    cbn in Hstep. by injection Hstep as <-.
Qed.

Lemma pending_run p tr p' t x :
  run p tr = Some p' → tasks p !! t = Some x → (t < spawned p)%nat →
  Continue t ∉ tr → (x.2 = AwaitingFactory → ∀ result, FactorySettles t result ∉ tr) →
  tasks p' !! t = Some x.
Proof.
  revert p. induction tr as [|a rest IH]; intros p Hrun Ht Hlt Hc Hf; cbn [run] in Hrun.
  - by injection Hrun as <-.
  - destruct (step p a) as [p1|] eqn:Hstep; [|done]. cbn in Hrun.
    apply not_elem_of_cons in Hc as [Hca Hc].
    destruct (pending_step p a p1 t x Hstep Ht Hlt) as [Ht1 Hlt1]; [done| |].
    { intros Hx result ->. apply (Hf Hx result), list_elem_of_here. }
    apply (IH p1); try done.
    intros Hx result Hin. apply (Hf Hx result). by apply list_elem_of_further.
Qed.

Lemma copy_events_log h r evs h' : copy_events h r evs = Some h' → log h' = log h.
Proof.
  revert h. induction evs as [|ev rest IH]; intros h Hcopy; cbn [copy_events] in Hcopy.
  - by injection Hcopy as <-.
  - destruct (copy_listeners h r ev _) as [h1|] eqn:Hinner; [|done].
    cbn in Hcopy. rewrite (IH _ Hcopy).
    by apply copy_listeners_spec in Hinner as ((_ & _ & -> & _) & _).
Qed.

Lemma _initProvider_resume_failure p result p' failure :
  _initProvider_resume p result = Some (p', failure) →
  failure ≠ Some TypeError ∧ log (mem p') = log (mem p).
Proof.
  intros Hres. destruct result as [r|e0]; cbn in Hres; [|by injection Hres as <- <-].
  destruct (resources (mem p) !! r); [|done]. cbn in Hres.
  destruct (copy_events _ _ _) as [h|] eqn:Hcopy; [|done]. cbn in Hres.
  destruct (resources h !! r) as [R|]; [|done]. cbn in Hres.
  apply copy_events_log in Hcopy. unfold Events.setMaxListeners in Hres.
  destruct (decide _); by injection Hres as <- <-.
Qed.

(** No suspended call carries a TypeError, and none is in the log. *)
Lemma step_no_type_error p a p' :
  step p a = Some p' → completed_have_provider p →
  (∀ t c, tasks p !! t ≠ Some (c, AwaitingInit (Some TypeError))) →
  (∀ t, Rejected t TypeError ∉ log (mem p)) →
  (∀ t c, tasks p' !! t ≠ Some (c, AwaitingInit (Some TypeError))) ∧
  (∀ t, Rejected t TypeError ∉ log (mem p')).
Proof.
  intros Hstep Hcompl Htasks Hlog.
  assert (∀ l, Forall is_run l → ∀ t, Rejected t TypeError ∉ log (mem p) ++ l) as Hruns.
  { intros l Hl t [Hin|Hin]%elem_of_app; [by apply (Hlog t)|].
    rewrite Forall_forall in Hl. by apply Hl in Hin. }
  destruct a as [c|m|t' result|t'|r type args]; cbn [step] in Hstep.
  - injection Hstep as <-. unfold start, _initProvider_enter.
    destruct (provider p); cbn; (split; [|done]); intros t c';
      (destruct (decide (spawned p = t)) as [<-|Hne];
       [by rewrite lookup_insert_eq|rewrite lookup_insert_ne by done; apply Htasks]).
  - apply emitter_step in Hstep as (out & (l & -> & Hl)%exec_log & _ & _ & -> & _).
    split; [done|by apply Hruns].
  - destruct (tasks p !! t') as [[c [|failure]]|] eqn:Ht'; try done.
    destruct (_initProvider_resume p result) as [[p1 failure]|] eqn:Hres; [|done].
    cbn in Hstep. injection Hstep as <-. cbn.
    assert (tasks p1 = tasks p) as ->.
    { destruct result as [r|e0]; cbn in Hres; [|by injection Hres as <- _].
      destruct (resources (mem p) !! r); [|done]. cbn in Hres.
      destruct (copy_events _ _ _) as [h|]; [|done]. cbn in Hres.
      destruct (resources h !! r) as [R|]; [|done]. cbn in Hres.
      destruct (Events.setMaxListeners R _); by injection Hres as <- _. }
    apply _initProvider_resume_failure in Hres as [Hfail ->].
    split; [|done]. intros t c'.
    destruct (decide (t' = t)) as [<-|Hne].
    + rewrite lookup_insert_eq. congruence.
    + rewrite lookup_insert_ne by done. apply Htasks.
  - destruct (tasks p !! t') as [[c [|failure]]|] eqn:Ht'; try done.
    injection Hstep as <-. cbn. split.
    + intros t c'. destruct (decide (t' = t)) as [<-|Hne].
      * by rewrite lookup_delete_eq.
      * rewrite lookup_delete_ne by done. apply Htasks.
    + intros t [Hin|Hin]%elem_of_app; [by apply (Hlog t)|].
      apply list_elem_of_singleton in Hin. unfold finish in Hin.
      destruct failure as [x|].
      * assert (x ≠ TypeError) by (intros ->; by destruct (Htasks t' c)).
        destruct c; congruence.
      * destruct (Hcompl t' c Ht') as [r0 Hr0]. by rewrite Hr0 in Hin.
  - destruct (emit_at _ _ _ _) as [[h out]|] eqn:Hemit; [|done].
    cbn in Hstep. injection Hstep as <-. cbn.
    apply emit_at_log in Hemit as (l & -> & Hl). split; [done|by apply Hruns].
Qed.
End Further.

(** ** The JSON-RPC calls *)

(** X1: [request] and [send] on an instance without provider, when the
    factory rejects with [e]: the caller's promise rejects with that same
    failure.  Nothing is forwarded, no callback is called, [provider] stays
    undefined, the heap is untouched and the call is gone; the factory was
    invoked once for it. *)
Theorem request_send_propagate_failure
    (p : LazyInitializationProvider) (c : remote_call) (e : nat) :
  provider p = None → (∀ payload callback, c ≠ SendAsync payload callback) →
  let t := spawned p in
  ∃ p', run p [Call c; FactorySettles t (inr e); Continue t] = Some p' ∧
        log (mem p') = log (mem p) ++ [Rejected t (FactoryFailure e)] ∧
        provider p' = None ∧ factoryCalls p' = S (factoryCalls p) ∧
        _emitter (mem p') = _emitter (mem p) ∧
        resources (mem p') = resources (mem p) ∧
        tasks p' !! t = None.
Proof.
  intros Hp Hc t.
  destruct (start_uninitialized p c Hp) as (Hp0 & Hf0 & Hm0 & _ & Ht0).
  assert (tasks (start p c) !! t = Some (c, AwaitingFactory)) as Ht.
  { rewrite Ht0. apply lookup_insert_eq. }
  eexists. split.
  - cbn [run]. change (step p (Call c)) with (Some (start p c)).
    cbn [mbind option_bind]. rewrite (settle_rejected _ _ _ _ Ht).
    cbn [mbind option_bind]. cbn [step tasks]. rewrite lookup_insert_eq.
    cbn [mbind option_bind]. reflexivity.
  - cbn. rewrite Hm0, Hp0, Hf0, lookup_delete_eq. split_and!; try done.
    destruct c as [a|m a|payload callback]; try done. by destruct (Hc payload callback).
Qed.

Lemma request_send_propagate_failure_witness :
  ∃ p', run (init [create]) [Call (Send "eth_chainId" 2); FactorySettles 0 (inr 9);
                              Continue 0] = Some p' ∧
        log (mem p') = [] ++ [Rejected 0 (FactoryFailure 9)] ∧
        provider p' = None ∧ factoryCalls p' = 1 ∧
        _emitter (mem p') = create ∧
        resources (mem p') = [create] ∧
        tasks p' !! 0 = None.
Proof.
  apply (request_send_propagate_failure (init [create]) (Send "eth_chainId" 2) 9).
  - reflexivity.
  - intros payload callback. discriminate.
Defined.

(** X2: a JSON-RPC call made when a provider is in place and no factory
    call is pending.  Whatever the callers and the scheduler do before its
    continuation runs, the call is then forwarded to that provider with the
    arguments it was made with; the factory is not invoked and [provider] is
    not written. *)
Theorem call_after_construction_forwarded
    (p : LazyInitializationProvider) (r : nat) (c : remote_call)
    (tr : list action) (p' : LazyInitializationProvider) :
  provider p = Some r → no_factory_pending p →
  let t := spawned p in
  Continue t ∉ tr →
  run p ([Call c] ++ tr ++ [Continue t]) = Some p' →
  provider p' = Some r ∧ factoryCalls p' = factoryCalls p ∧
  ∃ l, log (mem p') = l ++ [Forwarded r c].
Proof.
  intros Hp Hnone t Hc Hrun.
  rewrite run_app, run_one in Hrun. cbn [step mbind option_bind] in Hrun.
  destruct (start_initialized p c r Hp) as (Hp0 & Hf0 & _ & Ht0).
  assert (no_factory_pending (start p c)) as Hnone0.
  { intros t' c'. rewrite Ht0. destruct (decide (spawned p = t')) as [<-|Hne].
    - rewrite lookup_insert_eq. congruence.
    - rewrite lookup_insert_ne by done. apply Hnone. }
  rewrite run_app in Hrun.
  destruct (run (start p c) tr) as [p1|] eqn:Hrun1; [|done].
  cbn [mbind option_bind] in Hrun. rewrite run_one in Hrun.
  destruct (settled_run _ _ _ _ Hp0 Hnone0 Hrun1) as [Hp1 Hf1].
  assert (tasks p1 !! t = Some (c, AwaitingInit None)) as Ht1.
  { eapply pending_run; [exact Hrun1| | |done|done].
    - rewrite Ht0. apply lookup_insert_eq.
    - unfold start, _initProvider_enter. rewrite Hp. cbn. unfold t. lia. }
  cbn [step] in Hrun. rewrite Ht1 in Hrun. injection Hrun as <-. cbn.
  split_and!; [done|congruence|]. eexists. unfold finish. by rewrite Hp1.
Qed.

Lemma call_after_construction_forwarded_witness :
  let p := mkProvider (Some 0) (mkHeap create [create] ∅ 0 []) 1 ∅ 1 in
  let p' := mkProvider (Some 0)
              (mkHeap create [mkEmitter [("block", [Callback 4])] None] ∅ 0
                 [Invoked 4 None 6; Forwarded 0 (Request 5)]) 1 ∅ 2 in
  provider p' = Some 0 ∧ factoryCalls p' = factoryCalls p ∧
  ∃ l, log (mem p') = l ++ [Forwarded 0 (Request 5)].
Proof.
  apply (call_after_construction_forwarded
           (mkProvider (Some 0) (mkHeap create [create] ∅ 0 []) 1 ∅ 1) 0 (Request 5)
           [Emitter (On "block" 4); ResourceEmits 0 "block" 6]).
  - reflexivity.
  - intros t c. vm_compute. discriminate.
  - intros Hin. repeat (apply elem_of_cons in Hin as [Hin|Hin]; [discriminate|]).
    by apply elem_of_nil in Hin.
  - reflexivity.
Defined.

(** X3: used one call at a time, the class constructs once.  When no
    factory call is pending, a JSON-RPC call on an instance without provider
    invokes the factory once; after its promise has resolved to [r],
    [provider] is [r] for good and the factory is never invoked again,
    whatever calls, emitter methods and resumptions follow. *)
Theorem sequential_calls_construct_once
    (p : LazyInitializationProvider) (c : remote_call) (ms : list emitter_call)
    (r : nat) (tr : list action) (p' : LazyInitializationProvider) :
  reachable p → provider p = None → no_factory_pending p →
  run p ([Call c] ++ (Emitter <$> ms) ++ [FactorySettles (spawned p) (inl r)] ++ tr)
  = Some p' →
  provider p' = Some r ∧ factoryCalls p' = S (factoryCalls p).
Proof.
  intros Hreach Hp Hnone Hrun.
  destruct (start_uninitialized p c Hp) as (Hp0 & Hf0 & Hm0 & _ & Ht0).
  rewrite run_app, run_one in Hrun. cbn [step mbind option_bind] in Hrun.
  rewrite run_app in Hrun.
  destruct (run (start p c) (Emitter <$> ms)) as [p1|] eqn:Hrun1; [|done].
  cbn [mbind option_bind] in Hrun.
  pose proof (emitter_run_frame ms _ p1 _ Hrun1 eq_refl eq_refl)
    as (Hp1 & Hf1 & Ht1 & _).
  rewrite run_app, run_one in Hrun.
  destruct (step p1 _) as [p2|] eqn:Hstep; [|done].
  cbn [mbind option_bind] in Hrun.
  assert (reachable p1) as Hreach1.
  { apply (reachable_run p ([Call c] ++ (Emitter <$> ms))); [done|].
    rewrite run_app, run_one. cbn [step mbind option_bind]. done. }
  apply settle_resolved in Hstep as (c' & _ & Ht2 & Hp2 & Hf2 & _);
    [|by apply reachable_ok].
  assert (no_factory_pending p2) as Hnone2.
  { intros t' c''. rewrite Ht2, Ht1, Ht0.
    destruct (decide (spawned p = t')) as [<-|Hne].
    - rewrite lookup_insert_eq. congruence.
    - rewrite !lookup_insert_ne by done. apply Hnone. }
  destruct (settled_run _ _ _ _ Hp2 Hnone2 Hrun) as [Hp' Hf'].
  split; [done|]. rewrite Hf', Hf2, Hf1, Hf0. done.
Qed.

Lemma sequential_calls_construct_once_witness :
  let p' := mkProvider (Some 0)
              (mkHeap create [mkEmitter [("block", [Callback 1])] (Some 10%Z)] ∅ 0
                 [Forwarded 0 (Request 7); Forwarded 0 (Send "eth_call" 8)])
              1 ∅ 2 in
  provider p' = Some 0 ∧ factoryCalls p' = 1.
Proof.
  apply (sequential_calls_construct_once (init [create]) (Request 7) [On "block" 1] 0
           [Continue 0; Call (Send "eth_call" 8); Continue 1]).
  - exists [create], []. reflexivity.
  - reflexivity.
  - intros t c. vm_compute. discriminate.
  - reflexivity.
Defined.

(** X4: the non-null assertions [this.provider!] hold.  In every state the
    class can reach, however the calls interleave, no call has failed or is
    about to fail with the TypeError of a method call on an undefined
    [provider]: a continuation that runs after [_initProvider] completed
    finds a provider and forwards to it. *)
Theorem provider_defined_when_forwarding (p : LazyInitializationProvider) :
  reachable p →
  (∀ t, Rejected t TypeError ∉ log (mem p)) ∧
  (∀ t c, tasks p !! t = Some (c, AwaitingInit None) →
          ∃ r p', provider p = Some r ∧ step p (Continue t) = Some p' ∧
                  log (mem p') = log (mem p) ++ [Forwarded r c]).
Proof.
  intros Hreach. split.
  - destruct Hreach as (rs & tr & Hrun).
    assert (completed_have_provider (init rs) ∧
            (∀ t c, tasks (init rs) !! t ≠ Some (c, AwaitingInit (Some TypeError))) ∧
            (∀ t, Rejected t TypeError ∉ log (mem (init rs)))) as Hinit.
    { split_and!; [by intros t c|by intros t c|]. intros t Hin. by apply elem_of_nil in Hin. }
    revert Hrun Hinit. generalize (init rs).
    induction tr as [|a rest IH]; intros q Hrun (Hcompl & Htasks & Hlog).
    + cbn in Hrun. by injection Hrun as <-.
    + cbn [run] in Hrun. destruct (step q a) as [q1|] eqn:Hstep; [|done].
      cbn in Hrun. apply (IH q1 Hrun).
      destruct (step_no_type_error _ _ _ Hstep Hcompl Htasks Hlog) as [Htasks1 Hlog1].
      split_and!; [by eapply completed_step|done|done].
  - intros t c Ht.
    destruct (completed_call_forwarded p t c Hreach Ht) as (r & Hr & Hfin).
    exists r. eexists. split; [done|]. cbn [step]. rewrite Ht. split; [done|].
    cbn [mem log record]. by rewrite Hfin.
Qed.

Lemma provider_defined_when_forwarding_witness :
  let p := mkProvider (Some 1)
             (mkHeap create [mkEmitter [] (Some 10%Z); mkEmitter [] (Some 10%Z)] ∅ 0 [])
             2 {[0 := (Request 1, AwaitingInit None); 1 := (Request 2, AwaitingInit None)]}
             2 in
  (∀ t, Rejected t TypeError ∉ log (mem p)) ∧
  (∀ t c, tasks p !! t = Some (c, AwaitingInit None) →
          ∃ r p', provider p = Some r ∧ step p (Continue t) = Some p' ∧
                  log (mem p') = log (mem p) ++ [Forwarded r c]).
Proof.
  apply (provider_defined_when_forwarding
           (mkProvider (Some 1)
              (mkHeap create [mkEmitter [] (Some 10%Z); mkEmitter [] (Some 10%Z)] ∅ 0 [])
              2 {[0 := (Request 1, AwaitingInit None); 1 := (Request 2, AwaitingInit None)]}
              2)).
  exists [create; create],
    [Call (Request 1); Call (Request 2); FactorySettles 0 (inl 0); FactorySettles 1 (inl 1)].
  reflexivity.
Defined.

(** ** Listeners across construction *)

Section Completion.
Implicit Types (p : LazyInitializationProvider) (h : heap) (r : nat).

(** The inner loop goes through when it makes Node emit neither
    'newListener' on the provider nor 'removeListener' on [_emitter]. *)
Lemma copy_listeners_total h r ev ls :
  (r < length (resources h))%nat →
  listeners_of h (Resource r) "newListener" = [] →
  listeners_of h Buffer "removeListener" = [] →
  (ls ≠ [] → ev ≠ "newListener" ∧ ev ≠ "removeListener") →
  is_Some (copy_listeners h r ev ls).
Proof.
  revert h. induction ls as [|l rest IH]; intros h Hr Hnew Hrm Hev;
    cbn [copy_listeners]; [by eexists|].
  destruct Hev as [Hev1 Hev2]; [done|].
  destruct (lookup_lt_is_Some_2 _ _ Hr) as [R HR].
  assert (is_Some (add_at h (Resource r) ev l false)) as [h1 Hadd].
  { unfold add_at, _addListener. cbn [deref]. rewrite HR. cbn [mbind option_bind].
    unfold listeners_of in Hnew. cbn [deref] in Hnew. rewrite HR in Hnew.
    cbn [from_option] in Hnew. unfold has_listeners. rewrite Hnew.
    rewrite bool_decide_false by (intros Hne; by apply Hne). by eexists. }
  rewrite Hadd. cbn [mbind option_bind].
  pose proof (add_at_changed _ _ _ _ _ _ Hadd) as Hch1.
  assert (listeners_of h1 Buffer "removeListener" = []) as Hrm1.
  { rewrite (add_at_listeners _ _ _ _ _ Buffer "removeListener" Hadd).
    rewrite decide_False; [done|]. by intros [? _]. }
  assert (is_Some (remove_at h1 Buffer ev l)) as [h2 Hrem].
  { unfold remove_at. cbn [deref mbind option_bind]. unfold Events.removeListener.
    destruct (remove_last l (handlers ev (_emitter h1))) as [fs|]; [|by eexists].
    unfold has_listeners. rewrite handlers_store_ne by done.
    unfold listeners_of in Hrm1. cbn [deref from_option] in Hrm1. rewrite Hrm1.
    rewrite bool_decide_false by (intros Hne; by apply Hne). by eexists. }
  rewrite Hrem. cbn [mbind option_bind].
  pose proof (remove_at_changed _ _ _ _ _ Hrem) as Hch2.
  apply IH.
  - destruct Hch1 as (_ & _ & _ & Hl1 & _), Hch2 as (_ & _ & _ & Hl2 & _). lia.
  - rewrite (remove_at_listeners_ne _ _ _ _ _ _ _ Hrem) by (by left).
    rewrite (add_at_listeners _ _ _ _ _ _ _ Hadd).
    rewrite decide_False; [done|]. intros [_ Heq]. by destruct Hev1.
  - rewrite (remove_at_listeners_ne _ _ _ _ _ _ _ Hrem) by (right; congruence).
    done.
  - done.
Qed.

Lemma copy_events_total h r evs :
  (r < length (resources h))%nat →
  listeners_of h (Resource r) "newListener" = [] →
  listeners_of h Buffer "newListener" = [] →
  listeners_of h Buffer "removeListener" = [] →
  is_Some (copy_events h r evs).
Proof.
  revert h. induction evs as [|ev rest IH]; intros h Hr HnewR HnewB HrmB;
    cbn [copy_events]; [by eexists|].
  assert (Events.rawListeners (_emitter h) ev ≠ [] →
          ev ≠ "newListener" ∧ ev ≠ "removeListener") as Hev.
  { intros Hne. split; intros ->; by apply Hne. }
  destruct (copy_listeners_total h r ev (Events.rawListeners (_emitter h) ev))
    as [h1 Hinner]; [done..|].
  rewrite Hinner. cbn [mbind option_bind].
  destruct (decide (Events.rawListeners (_emitter h) ev = [])) as [Hempty|Hne].
  - rewrite Hempty in Hinner. cbn in Hinner. injection Hinner as <-. by apply IH.
  - destruct (Hev Hne) as [Hev1 Hev2].
    apply copy_listeners_spec in Hinner as (Hch & _ & Hother & _).
    apply IH.
    + destruct Hch as (_ & _ & _ & Hl & _). lia.
    + rewrite Hother by congruence. done.
    + rewrite Hother by congruence. done.
    + rewrite Hother by congruence. done.
Qed.

(** [_initProvider] completes when the factory promise of a pending call
    resolves to an existing provider and the copy emits no 'newListener' or
    'removeListener' event. *)
Lemma settle_total p t c r :
  heap_ok (mem p) → tasks p !! t = Some (c, AwaitingFactory) →
  (r < length (resources (mem p)))%nat →
  listeners_of (mem p) Buffer "newListener" = [] →
  listeners_of (mem p) Buffer "removeListener" = [] →
  listeners_of (mem p) (Resource r) "newListener" = [] →
  is_Some (step p (FactorySettles t (inl r))).
Proof.
  intros Hok Ht Hr HnewB HrmB HnewR. cbn [step]. rewrite Ht.
  unfold _initProvider_resume.
  destruct (lookup_lt_is_Some_2 _ _ Hr) as [R HR]. rewrite HR. cbn [mbind option_bind].
  destruct (copy_events_total (mem p) r (Events.eventNames (_emitter (mem p))))
    as [h Hcopy]; [done..|].
  rewrite Hcopy. cbn [mbind option_bind].
  pose proof (copy_events_spec _ _ _ _ Hcopy (eventNames_NoDup _ (ok_keys _ Hok)))
    as (Hch & _).
  assert (is_Some (resources h !! r)) as [R1 HR1].
  { apply lookup_lt_is_Some_2. destruct Hch as (_ & _ & _ & Hl & _). lia. }
  rewrite HR1. cbn [mbind option_bind].
  unfold Events.setMaxListeners. rewrite (listeners_changed_max _ _ Hch).
  rewrite decide_False by (pose proof (ok_max _ Hok); lia).
  cbn. by eexists.
Qed.
End Completion.

(** X5: what a resolved factory promise does to the listeners.  A call is
    awaiting the factory, the promise resolves to a provider, and the copy
    makes Node emit no event of its own: [_emitter] has no listener for
    'newListener' or 'removeListener' and the provider none for
    'newListener'.  Then [_initProvider] completes, and for every event name
    the instance afterwards lists the provider's own listeners followed by
    the recorded ones, the same functions in the order they had in
    [_emitter] ([rawListeners], and [listeners] with the once wrappers
    unwrapped), and counts them all.  The copy has run no listener: the log
    and the [fired] flags are what they were. *)
Theorem construction_copies_listeners
    (p : LazyInitializationProvider) (t : nat) (c : remote_call) (r : nat) :
  reachable p →
  tasks p !! t = Some (c, AwaitingFactory) →
  (r < length (resources (mem p)))%nat →
  listeners_of (mem p) Buffer "newListener" = [] →
  listeners_of (mem p) Buffer "removeListener" = [] →
  listeners_of (mem p) (Resource r) "newListener" = [] →
  ∃ p', step p (FactorySettles t (inl r)) = Some p' ∧
        log (mem p') = log (mem p) ∧ fired (mem p') = fired (mem p) ∧
        ∀ type,
          let own := listeners_of (mem p) (Resource r) type in
          let recorded := Events.rawListeners (_emitter (mem p)) type in
          rawListeners p' type = Some (p', Returned (VFns (own ++ recorded))) ∧
          listeners p' type = Some (p', Returned (VFns (unwrap <$> (own ++ recorded)))) ∧
          listenerCount p' type
          = Some (p', Returned (VNum (Z.of_nat (length own + length recorded)))).
Proof.
  intros Hok%reachable_ok Ht Hr HnewB HrmB HnewR.
  destruct (settle_total p t c r) as [p' Hstep]; [done..|].
  exists p'. split; [done|].
  pose proof (settle_resolved _ _ _ _ Hok Hstep)
    as (c' & _ & _ & Hp' & _ & Hlog & Hfired & (R' & HR' & _) & Hcopied).
  split_and!; [done..|]. intros type own recorded.
  destruct (migrated_listeners_listed p t r p' type Hok Hstep) as [Hraw Hls].
  split_and!; [done..|].
  specialize (Hcopied type). unfold listeners_of in Hcopied at 1. cbn in Hcopied.
  rewrite HR' in Hcopied. cbn in Hcopied.
  unfold listenerCount, via_emitter, _getEmitter. rewrite Hp'.
  cbn. unfold read. cbn. rewrite HR'. cbn.
  unfold Events.listenerCount. rewrite Hcopied, length_app.
  by destruct p'.
Qed.

Lemma construction_copies_listeners_witness :
  let rs := [mkEmitter [("block", [Callback 9])] None] in
  let p := mkProvider None
             (mkHeap (mkEmitter [("block", [Callback 1; OnceWrapper 0 Buffer "block" 2])] None)
                rs ∅ 1 []) 1 {[0 := (Request 7, AwaitingFactory)]} 1 in
  ∃ p', step p (FactorySettles 0 (inl 0)) = Some p' ∧
        log (mem p') = log (mem p) ∧ fired (mem p') = fired (mem p) ∧
        ∀ type,
          let own := listeners_of (mem p) (Resource 0) type in
          let recorded := Events.rawListeners (_emitter (mem p)) type in
          rawListeners p' type = Some (p', Returned (VFns (own ++ recorded))) ∧
          listeners p' type = Some (p', Returned (VFns (unwrap <$> (own ++ recorded)))) ∧
          listenerCount p' type
          = Some (p', Returned (VNum (Z.of_nat (length own + length recorded)))).
Proof.
  apply (construction_copies_listeners
           (mkProvider None
              (mkHeap (mkEmitter [("block", [Callback 1; OnceWrapper 0 Buffer "block" 2])] None)
                 [mkEmitter [("block", [Callback 9])] None] ∅ 1 [])
              1 {[0 := (Request 7, AwaitingFactory)]} 1) 0 (Request 7) 0).
  - exists [mkEmitter [("block", [Callback 9])] None],
      [Emitter (On "block" 1); Emitter (Once "block" 2); Call (Request 7)].
    reflexivity.
  - reflexivity.
  - simpl. lia.
  - reflexivity.
  - reflexivity.
  - reflexivity.
Defined.

(** X6: the loop of [_initProvider] empties [_emitter] whenever no
    recorded function sits in a list both as itself and inside a once
    wrapper: after the factory has resolved, [_emitter] has no listener left
    for any event name. *)
Theorem construction_drains_emitter
    (p : LazyInitializationProvider) (t r : nat) (p' : LazyInitializationProvider) :
  reachable p →
  (∀ type, unambiguous (Events.rawListeners (_emitter (mem p)) type)) →
  step p (FactorySettles t (inl r)) = Some p' →
  ∀ type, Events.rawListeners (_emitter (mem p')) type = [] ∧
          Events.listenerCount (_emitter (mem p')) type = 0.
Proof.
  intros Hreach Hun Hstep type.
  pose proof (migration_drains p t r p' Hreach Hstep Hun type) as Hempty.
  split; [done|]. unfold Events.listenerCount.
  unfold Events.rawListeners in Hempty. by rewrite Hempty.
Qed.

Lemma construction_drains_emitter_witness :
  let p' := mkProvider (Some 0)
              (mkHeap create
                 [mkEmitter [("block", [Callback 1; OnceWrapper 0 Buffer "block" 2]);
                             ("close", [Callback 1])] (Some 10%Z)]
                 ∅ 1 []) 1 {[0 := (Request 7, AwaitingInit None)]} 1 in
  (Events.rawListeners (_emitter (mem p')) "block" = [] ∧
   Events.listenerCount (_emitter (mem p')) "block" = 0) ∧
  (Events.rawListeners (_emitter (mem p')) "close" = [] ∧
   Events.listenerCount (_emitter (mem p')) "close" = 0).
Proof.
  cbv zeta. split.
  all: apply (construction_drains_emitter
           (mkProvider None
              (mkHeap (mkEmitter [("block", [Callback 1; OnceWrapper 0 Buffer "block" 2]);
                                  ("close", [Callback 1])] None)
                 [create] ∅ 1 [])
              1 {[0 := (Request 7, AwaitingFactory)]} 1) 0 0).
  all: try reflexivity.
  all: try (exists [create],
      [Emitter (On "block" 1); Emitter (Once "block" 2); Emitter (On "close" 1);
       Call (Request 7)]; reflexivity).
  all: intros type c w target ty Hc Hw; unfold Events.rawListeners, handlers in *;
    cbn in Hc, Hw; repeat case_decide; cbn in Hc, Hw;
      decompose_list_elem_of; congruence.
Defined.

(** ** The emitter methods, before and after construction *)

Section Routing.
Implicit Types (p : LazyInitializationProvider) (h : heap) (e : emitter_ref).

Lemma remove_last_snoc l fs : remove_last l (fs ++ [l]) = Some fs.
Proof.
  induction fs as [|g rest IH]; simpl.
  - unfold matches. by rewrite bool_decide_true.
  - by rewrite IH.
Qed.

(** What [rawListeners] of the class answers. *)
Lemma rawListeners_answer p type :
  is_Some (deref (mem p) (_getEmitter p)) →
  rawListeners p type
  = Some (p, Returned (VFns (listeners_of (mem p) (_getEmitter p) type))).
Proof.
  intros [E HE]. unfold rawListeners, via_emitter, listeners_of. cbn.
  unfold read. rewrite HE. cbn. by destruct p.
Qed.

Lemma invoke_all_callbacks args h cs :
  invoke_all args h (Callback <$> cs)
  = Some (mkHeap (_emitter h) (resources h) (fired h) (wrappers h)
            (log h ++ ((λ c, Invoked c None args) <$> cs))).
Proof.
  revert h. induction cs as [|c rest IH]; intros h; cbn.
  - rewrite app_nil_r. by destruct h.
  - rewrite IH. cbn. by rewrite <- app_assoc.
Qed.
End Routing.

(** X7: registering and unregistering through the class, with or without
    a provider.  After [on(event, l)] the instance lists [l] last for that
    event, the other events are as before, and [off(event, l)] right after
    gives back the list there was before the registration. *)
Theorem on_then_off_restores
    (p : LazyInitializationProvider) (type : event) (l : nat)
    (p1 : LazyInitializationProvider) (o1 : outcome) :
  on p type l = Some (p1, o1) →
  let before := listeners_of (mem p) (_getEmitter p) type in
  o1 = Returned VThis ∧
  rawListeners p1 type = Some (p1, Returned (VFns (before ++ [Callback l]))) ∧
  (∀ type', type' ≠ type →
            listeners_of (mem p1) (_getEmitter p1) type'
            = listeners_of (mem p) (_getEmitter p) type') ∧
  (∀ p2 o2, off p1 type l = Some (p2, o2) →
            o2 = Returned VThis ∧
            rawListeners p2 type = Some (p2, Returned (VFns before))).
Proof.
  intros Hon before. unfold on, off, via_emitter in *.
  destruct (exec (mem p) (_getEmitter p) (On type l)) as [[h1 o]|] eqn:Hexec; [|done].
  cbn in Hon. injection Hon as <- <-. cbn [exec] in Hexec.
  apply this_Some in Hexec as [Hadd ->].
  assert (_getEmitter (with_mem p h1) = _getEmitter p) as Hsame by done.
  pose proof (add_at_listeners _ _ _ _ _ (_getEmitter p) type Hadd) as Hls.
  rewrite decide_True in Hls by done.
  assert (is_Some (deref h1 (_getEmitter p))) as Hderef.
  { apply add_at_Some in Hadd as (E & HE & _ & ->).
    rewrite deref_assign_eq by eauto. eauto. }
  split_and!.
  - done.
  - rewrite rawListeners_answer by done. cbn [mem with_mem]. by rewrite Hsame, Hls.
  - intros type' Hne. cbn [mem with_mem]. rewrite Hsame.
    rewrite (add_at_listeners _ _ _ _ _ (_getEmitter p) type' Hadd).
    rewrite decide_False; [done|]. by intros [_ ?].
  - intros p2 o2 Hoff. rewrite Hsame in Hoff. cbn [mem with_mem exec] in Hoff.
    destruct (this _) as [[h2 o]|] eqn:Hthis; [|done].
    cbn in Hoff. injection Hoff as <- <-.
    apply this_Some in Hthis as [Hrm ->]. split; [done|].
    apply remove_at_Some in Hrm as (E & E' & HE & Hrm & ->).
    assert (handlers type E = before ++ [Callback l]) as HhE.
    { unfold listeners_of in Hls. by rewrite HE in Hls. }
    unfold Events.removeListener in Hrm. rewrite HhE, remove_last_snoc in Hrm.
    destruct (has_listeners _ _); [done|]. injection Hrm as <-.
    rewrite rawListeners_answer.
    + cbn [mem with_mem]. change (_getEmitter (with_mem _ _)) with (_getEmitter p).
      unfold listeners_of. rewrite deref_assign_eq by eauto. cbn [from_option].
      by rewrite handlers_store_eq.
    + cbn [mem with_mem]. change (_getEmitter (with_mem _ _)) with (_getEmitter p).
      rewrite deref_assign_eq by eauto. eauto.
Qed.

Lemma on_then_off_restores_witness :
  let p := mkProvider (Some 0)
             (mkHeap create [mkEmitter [("block", [OnceWrapper 0 (Resource 0) "block" 3])] None]
                ∅ 1 []) 1 ∅ 1 in
  let p1 := mkProvider (Some 0)
              (mkHeap create
                 [mkEmitter [("block", [OnceWrapper 0 (Resource 0) "block" 3; Callback 3])] None]
                 ∅ 1 []) 1 ∅ 1 in
  let before := listeners_of (mem p) (_getEmitter p) "block" in
  Returned VThis = Returned VThis ∧
  rawListeners p1 "block" = Some (p1, Returned (VFns (before ++ [Callback 3]))) ∧
  (∀ type', type' ≠ "block" →
            listeners_of (mem p1) (_getEmitter p1) type'
            = listeners_of (mem p) (_getEmitter p) type') ∧
  (∀ p2 o2, off p1 "block" 3 = Some (p2, o2) →
            o2 = Returned VThis ∧
            rawListeners p2 "block" = Some (p2, Returned (VFns before))).
Proof.
  apply (on_then_off_restores
           (mkProvider (Some 0)
              (mkHeap create
                 [mkEmitter [("block", [OnceWrapper 0 (Resource 0) "block" 3])] None]
                 ∅ 1 []) 1 ∅ 1) "block" 3).
  reflexivity.
Defined.

Section Traffic.
Implicit Types (p : LazyInitializationProvider) (h : heap).

Lemma finish_not_run p t c failure : ¬ is_run (finish p t c failure).
Proof. unfold finish. repeat case_match; cbn; tauto. Qed.

(** A JSON-RPC call and its continuation leave [provider] and every
    emitter as they are; the continuation adds its one entry to the log. *)
Lemma rpc_step p a p' :
  is_rpc a → step p a = Some p' →
  provider p' = provider p ∧ _emitter (mem p') = _emitter (mem p) ∧
  resources (mem p') = resources (mem p) ∧ fired (mem p') = fired (mem p) ∧
  ∃ l, log (mem p') = log (mem p) ++ l ∧ Forall (λ x, ¬ is_run x) l.
Proof.
  intros Ha Hstep. destruct a as [c|m|t result|t|r type args]; try done;
    cbn [step] in Hstep.
  - injection Hstep as <-. unfold start, _initProvider_enter.
    destruct (provider p) eqn:Hp; cbn; rewrite ?Hp; split_and!; try done;
      exists []; by rewrite app_nil_r.
  - destruct (tasks p !! t) as [[c [|failure]]|]; try done.
    injection Hstep as <-. cbn. split_and!; try done.
    eexists. split; [done|]. constructor; [apply finish_not_run|constructor].
Qed.

Lemma rpc_run p tr p' :
  Forall is_rpc tr → run p tr = Some p' →
  provider p' = provider p ∧ _emitter (mem p') = _emitter (mem p) ∧
  resources (mem p') = resources (mem p) ∧ fired (mem p') = fired (mem p) ∧
  ∃ l, log (mem p') = log (mem p) ++ l ∧ Forall (λ x, ¬ is_run x) l.
Proof.
  revert p. induction tr as [|a rest IH]; intros p Htr Hrun; cbn [run] in Hrun.
  - injection Hrun as <-. split_and!; try done. exists []. by rewrite app_nil_r.
  - apply Forall_cons in Htr as [Ha Hrest].
    destruct (step p a) as [p1|] eqn:Hstep; [|done]. cbn [mbind option_bind] in Hrun.
    destruct (rpc_step _ _ _ Ha Hstep) as (Hp1 & He1 & Hr1 & Hf1 & l1 & Hl1 & Hn1).
    destruct (IH _ Hrest Hrun) as (Hp' & He' & Hr' & Hf' & l2 & Hl2 & Hn2).
    split_and!; try congruence.
    exists (l1 ++ l2). rewrite Hl2, Hl1, app_assoc. split; [done|by apply Forall_app].
Qed.

Lemma rpc_run_listeners p tr p' e type :
  Forall is_rpc tr → run p tr = Some p' →
  listeners_of (mem p') e type = listeners_of (mem p) e type.
Proof.
  intros Htr Hrun. destruct (rpc_run _ _ _ Htr Hrun) as (_ & He & Hr & _).
  unfold listeners_of. destruct e; cbn [deref]; by rewrite ?He, ?Hr.
Qed.
End Traffic.

(** X8: a factory promise has resolved, and then only JSON-RPC calls and
    their continuations happen: no other factory promise resolves and no
    emitter method is called.  When the recorded listeners of an event and
    the provider's own are callers' functions, and there is one at least, an
    [emit] of that event through the instance then runs the provider's own
    and after them the recorded ones, each once and in the order of
    registration, and answers true. *)
Theorem recorded_listeners_receive_event
    (p : LazyInitializationProvider) (t r : nat) (p1 : LazyInitializationProvider)
    (type : event) (own cs : list nat) (tr : list action)
    (p1' : LazyInitializationProvider) (args : nat) :
  reachable p →
  step p (FactorySettles t (inl r)) = Some p1 →
  listeners_of (mem p) (Resource r) type = Callback <$> own →
  Events.rawListeners (_emitter (mem p)) type = Callback <$> cs →
  own ++ cs ≠ [] →
  Forall is_rpc tr → run p1 tr = Some p1' →
  ∃ p2, emit p1' type args = Some (p2, Returned (VBool true)) ∧
        log (mem p2) = log (mem p1') ++ ((λ c, Invoked c None args) <$> (own ++ cs)) ∧
        provider p2 = Some r.
Proof.
  intros Hok%reachable_ok Hstep Hown Hcs Hne Htr Hrun.
  apply settle_resolved in Hstep
    as (c & _ & _ & Hp1 & _ & Hlog & _ & (R' & HR' & _) & Hcopied); [|done].
  specialize (Hcopied type).
  change (listeners_of (mem p) Buffer type)
    with (Events.rawListeners (_emitter (mem p)) type) in Hcopied.
  rewrite Hown, Hcs, <- fmap_app in Hcopied.
  destruct (rpc_run _ _ _ Htr Hrun) as (Hp1' & _ & Hres & _).
  rewrite <- (rpc_run_listeners p1 tr p1' (Resource r) type Htr Hrun) in Hcopied.
  rewrite Hp1 in Hp1'.
  assert (is_Some (resources (mem p1') !! r)) as [R1 HR1] by (rewrite Hres; eauto).
  unfold listeners_of in Hcopied. cbn [deref] in Hcopied.
  rewrite HR1 in Hcopied. cbn [from_option] in Hcopied.
  unfold emit, via_emitter, _getEmitter. rewrite Hp1'. cbn [exec].
  unfold emit_at. cbn [deref]. rewrite HR1. cbn [mbind option_bind].
  rewrite Hcopied.
  destruct (Callback <$> own ++ cs) as [|f fs] eqn:Hfs.
  { apply fmap_nil_inv in Hfs. by destruct Hne. }
  rewrite <- Hfs, invoke_all_callbacks. cbn.
  eexists. split; [done|]. done.
Qed.

Lemma recorded_listeners_receive_event_witness :
  let p1' := mkProvider (Some 0)
               (mkHeap create
                  [mkEmitter [("block", [Callback 9; Callback 1; Callback 2])] (Some 10%Z)]
                  ∅ 0 [Forwarded 0 (Request 7)])
               1 {[1 := (Send "eth_chainId" 8, AwaitingInit None)]} 2 in
  ∃ p2, emit p1' "block" 5 = Some (p2, Returned (VBool true)) ∧
        log (mem p2) = log (mem p1') ++ ((λ c, Invoked c None 5) <$> ([9] ++ [1; 2])) ∧
        provider p2 = Some 0.
Proof.
  apply (recorded_listeners_receive_event
           (mkProvider None
              (mkHeap (mkEmitter [("block", [Callback 1; Callback 2])] None)
                 [mkEmitter [("block", [Callback 9])] None] ∅ 0 [])
              1 {[0 := (Request 7, AwaitingFactory)]} 1) 0 0
           (mkProvider (Some 0)
              (mkHeap create
                 [mkEmitter [("block", [Callback 9; Callback 1; Callback 2])] (Some 10%Z)]
                 ∅ 0 []) 1 {[0 := (Request 7, AwaitingInit None)]} 1)
           "block" [9] [1; 2]
           [Continue 0; Call (Send "eth_chainId" 8)]).
  - exists [mkEmitter [("block", [Callback 9])] None],
      [Emitter (On "block" 1); Emitter (On "block" 2); Call (Request 7)].
    reflexivity.
  - reflexivity.
  - reflexivity.
  - reflexivity.
  - discriminate.
  - repeat constructor.
  - reflexivity.
Defined.

(** X9: [removeAllListeners(event?)] of the class always hands one argument
    to the emitter.  It removes the listeners of that one event name, the
    name 'undefined' when called without argument, and leaves the listeners
    of every other event where they are; called without argument it does
    not remove all listeners. *)
Theorem removeAllListeners_removes_one_name
    (p : LazyInitializationProvider) (ev : option event)
    (p' : LazyInitializationProvider) (o : outcome) :
  removeAllListeners p ev = Some (p', o) →
  let name := default "undefined" ev in
  o = Returned VThis ∧ _getEmitter p' = _getEmitter p ∧
  listeners_of (mem p') (_getEmitter p) name = [] ∧
  ∀ type, type ≠ name →
          listeners_of (mem p') (_getEmitter p) type
          = listeners_of (mem p) (_getEmitter p) type.
Proof.
  intros Hrm name. unfold removeAllListeners, via_emitter in Hrm.
  destruct (exec _ _ _) as [[h out]|] eqn:Hexec; [|done].
  cbn in Hrm. injection Hrm as <- <-. cbn [exec] in Hexec.
  apply this_Some in Hexec as [Hexec ->].
  destruct (deref (mem p) (_getEmitter p)) as [E|] eqn:HE; [|done].
  cbn [mbind option_bind] in Hexec. unfold Events.removeAllListeners in Hexec.
  destruct (has_listeners _ _); [done|]. cbn in Hexec. injection Hexec as <-.
  fold name. cbn [mem with_mem]. unfold listeners_of.
  rewrite deref_assign_eq by eauto. rewrite HE. cbn [from_option].
  split_and!; [done|done|apply handlers_store_eq|].
  intros type Hne. by apply handlers_store_ne.
Qed.

Lemma removeAllListeners_removes_one_name_witness :
  let p := mkProvider None
             (mkHeap (mkEmitter [("block", [Callback 1]); ("undefined", [Callback 2])] None)
                [] ∅ 0 []) 0 ∅ 0 in
  let p' := mkProvider None
              (mkHeap (mkEmitter [("block", [Callback 1])] None) [] ∅ 0 []) 0 ∅ 0 in
  let name := default "undefined" None in
  Returned VThis = Returned VThis ∧ _getEmitter p' = _getEmitter p ∧
  listeners_of (mem p') (_getEmitter p) name = [] ∧
  ∀ type, type ≠ name →
          listeners_of (mem p') (_getEmitter p) type
          = listeners_of (mem p) (_getEmitter p) type.
Proof.
  apply (removeAllListeners_removes_one_name
           (mkProvider None
              (mkHeap (mkEmitter [("block", [Callback 1]); ("undefined", [Callback 2])] None)
                 [] ∅ 0 []) 0 ∅ 0) None).
  reflexivity.
Defined.

(** X10: [setMaxListeners] and [getMaxListeners] of the class, with or
    without a provider.  A negative value is refused with a RangeError and
    nothing changes; any other value is what [getMaxListeners] reports
    right after, and no listener list is touched. *)
Theorem setMaxListeners_then_get
    (p : LazyInitializationProvider) (n : Z)
    (p' : LazyInitializationProvider) (o : outcome) :
  setMaxListeners p n = Some (p', o) →
  ((n < 0)%Z → o = Thrown RangeError ∧ p' = p) ∧
  ((0 ≤ n)%Z →
   o = Returned VThis ∧
   getMaxListeners p' = Some (p', Returned (VNum n)) ∧
   ∀ e type, listeners_of (mem p') e type = listeners_of (mem p) e type).
Proof.
  intros Hset. unfold setMaxListeners, via_emitter in Hset.
  destruct (exec _ _ _) as [[h out]|] eqn:Hexec; [|done].
  cbn in Hset. injection Hset as <- <-. cbn [exec] in Hexec.
  destruct (deref (mem p) (_getEmitter p)) as [E|] eqn:HE; [|done].
  cbn [mbind option_bind] in Hexec. unfold Events.setMaxListeners in Hexec.
  destruct (decide (n < 0)%Z) as [Hneg|Hpos]; injection Hexec as <- <-.
  - split; [|lia]. intros _. split; [done|]. by destruct p.
  - split; [lia|]. intros _. split_and!; [done| |].
    + unfold getMaxListeners, via_emitter.
      change (_getEmitter (with_mem _ _)) with (_getEmitter p).
      cbn [mem with_mem exec]. unfold read.
      rewrite deref_assign_eq by eauto. cbn. by destruct p.
    + intros e type. cbn [mem with_mem]. unfold listeners_of.
      destruct (decide (_getEmitter p = e)) as [<-|Hne].
      * rewrite deref_assign_eq by eauto. by rewrite HE.
      * by rewrite deref_assign_ne.
Qed.

Lemma setMaxListeners_then_get_witness :
  let p := mkProvider (Some 0) (mkHeap create [create] ∅ 0 []) 1 ∅ 1 in
  let p' := mkProvider (Some 0) (mkHeap create [mkEmitter [] (Some 0%Z)] ∅ 0 []) 1 ∅ 1 in
  ((0 < 0)%Z → Returned VThis = Thrown RangeError ∧ p' = p) ∧
  ((0 ≤ 0)%Z →
   Returned VThis = Returned VThis ∧
   getMaxListeners p' = Some (p', Returned (VNum 0)) ∧
   ∀ e type, listeners_of (mem p') e type = listeners_of (mem p) e type).
Proof.
  apply (setMaxListeners_then_get
           (mkProvider (Some 0) (mkHeap create [create] ∅ 0 []) 1 ∅ 1) 0).
  reflexivity.
Defined.

(** ** Before the first construction *)

Section Lazy.
Implicit Types (p : LazyInitializationProvider) (h : heap) (E : EventEmitter).

Lemma targets_buffer_sublist fs fs' :
  fs' `sublist_of` fs → targets_buffer fs → targets_buffer fs'.
Proof. intros Hsub Hfs w target type c Hin. eapply Hfs, elem_of_sublist; done. Qed.

Lemma assign_buffer_targets h E :
  (∀ type, targets_buffer (handlers type E)) →
  resources (assign h Buffer E) = resources h ∧
  recorded_target_buffer (assign h Buffer E).
Proof. done. Qed.

Lemma add_at_buffer h type f prepend h' :
  add_at h Buffer type f prepend = Some h' → recorded_target_buffer h →
  targets_buffer [f] →
  resources h' = resources h ∧ recorded_target_buffer h'.
Proof.
  intros (E & HE & _ & ->)%add_at_Some Hinv Hf. cbn in HE. injection HE as <-.
  apply assign_buffer_targets. intros t. rewrite handlers_store.
  destruct (decide (t = type)) as [->|]; [|apply Hinv].
  intros w target ty c Hin. destruct prepend.
  - apply elem_of_cons in Hin as [Heq|Hin]; [|by eapply Hinv].
    eapply Hf. rewrite Heq. apply list_elem_of_here.
  - apply elem_of_app in Hin as [Hin|Hin]; [by eapply Hinv|by eapply Hf].
Qed.

Lemma remove_at_buffer h type f h' :
  remove_at h Buffer type f = Some h' → recorded_target_buffer h →
  resources h' = resources h ∧ recorded_target_buffer h'.
Proof.
  intros (E & E' & HE & Hrm & ->)%remove_at_Some Hinv. cbn in HE. injection HE as <-.
  apply assign_buffer_targets.
  apply removeListener_Some in Hrm as [->|(fs & Hfs & ->)]; [done|].
  intros t. rewrite handlers_store.
  destruct (decide (t = type)) as [->|]; [|apply Hinv].
  eapply targets_buffer_sublist; [by eapply remove_last_sublist|apply Hinv].
Qed.

Lemma invoke_all_buffer args h fs h' :
  invoke_all args h fs = Some h' → recorded_target_buffer h → targets_buffer fs →
  resources h' = resources h ∧ recorded_target_buffer h'.
Proof.
  revert h. induction fs as [|f rest IH]; intros h Hall Hinv Hfs; cbn [invoke_all] in Hall.
  - by injection Hall as <-.
  - destruct (invoke args h f) as [h1|] eqn:Hinv1; [|done].
    cbn [mbind option_bind] in Hall.
    assert (resources h1 = resources h ∧ recorded_target_buffer h1) as [Hr1 Hi1].
    { destruct f as [c|w target type c]; cbn [invoke] in Hinv1.
      - by injection Hinv1 as <-.
      - destruct (decide (w ∈ fired h)); [by injection Hinv1 as <-|].
        rewrite (Hfs w target type c) in Hinv1 by apply list_elem_of_here.
        destruct (remove_at h Buffer type _) as [h2|] eqn:Hrm; [|done].
        cbn in Hinv1. injection Hinv1 as <-.
        by apply remove_at_buffer in Hrm. }
    destruct (IH h1 Hall Hi1) as [Hr' Hi'].
    + intros w target type c Hin. eapply Hfs. by apply list_elem_of_further.
    + split; [congruence|done].
Qed.

Lemma exec_buffer h m h' out :
  exec h Buffer m = Some (h', out) → recorded_target_buffer h →
  resources h' = resources h ∧ recorded_target_buffer h'.
Proof.
  intros Hexec Hinv.
  assert (∀ c, targets_buffer [Callback c]) as Hplain.
  { intros c w target type c' Hin. apply list_elem_of_singleton in Hin. discriminate. }
  assert (∀ w type c, targets_buffer [OnceWrapper w Buffer type c]) as Hwrap.
  { intros w type c w' target type' c' Hin. apply list_elem_of_singleton in Hin.
    congruence. }
  destruct m; cbn [exec] in Hexec;
    try (apply this_Some in Hexec as [Hexec _]);
    try (apply read_Some in Hexec as [-> _]; by split).
  1-2,4: by eapply add_at_buffer.
  1-2: unfold add_once in Hexec; by eapply (add_at_buffer (fresh_wrapper h)).
  1-2: by eapply remove_at_buffer.
  - cbn in Hexec. unfold Events.removeAllListeners in Hexec.
    destruct (has_listeners _ _); [done|]. cbn in Hexec. injection Hexec as <-.
    apply assign_buffer_targets. intros t. rewrite handlers_store.
    destruct (decide _); [|apply Hinv]. intros w target type c Hin.
    by apply elem_of_nil in Hin.
  - cbn in Hexec. unfold Events.setMaxListeners in Hexec.
    destruct (decide _); injection Hexec as <- _; [by split|].
    apply assign_buffer_targets. intros t. apply Hinv.
  - unfold emit_at in Hexec. cbn -[invoke_all] in Hexec.
    pose proof (Hinv type) as Hfs.
    destruct (handlers type (_emitter h)) as [|f fs].
    + destruct (decide _); by injection Hexec as <- _.
    + destruct (invoke_all args h (f :: fs)) as [h1|] eqn:Hall; [|done].
      cbn in Hexec. injection Hexec as <- _. by eapply invoke_all_buffer.
Qed.
End Lazy.

(** X11: construction is lazy, and every early call pays for it.  As long
    as no factory promise has resolved (and no provider emits by itself),
    whatever the callers do, [provider] is undefined, no provider has been
    touched (every emitter method, [emit] and the firing of once listeners
    included, acts on [_emitter]), and the factory has been invoked once for
    each JSON-RPC call made so far. *)
Theorem nothing_touched_before_construction
    (rs : list EventEmitter) (tr : list action) (p : LazyInitializationProvider) :
  run (init rs) tr = Some p → Forall before_construction tr →
  provider p = None ∧ resources (mem p) = rs ∧
  factoryCalls p = length (filter (λ a, is_call a = true) tr).
Proof.
  intros Hrun Hearly.
  enough (∀ q, provider q = None → recorded_target_buffer (mem q) →
               run q tr = Some p →
               provider p = None ∧ resources (mem p) = resources (mem q) ∧
               factoryCalls p = factoryCalls q + length (filter (λ a, is_call a = true) tr))
    as Hgen.
  { apply (Hgen (init rs)); [done| |done].
    intros type w target ty c Hin. by apply elem_of_nil in Hin. }
  clear Hrun. induction Hearly as [|a rest Ha Hrest IH]; intros q Hq Hinv Hrun.
  - cbn in Hrun. injection Hrun as <-. cbn. split_and!; [done..|lia].
  - cbn [run] in Hrun. destruct (step q a) as [q1|] eqn:Hstep; [|done].
    cbn [mbind option_bind] in Hrun.
    assert (provider q1 = None ∧ recorded_target_buffer (mem q1) ∧
            resources (mem q1) = resources (mem q) ∧
            factoryCalls q1 = factoryCalls q + (if is_call a then 1 else 0))
      as (Hq1 & Hinv1 & Hr1 & Hf1).
    { destruct a as [c|m|t [r|e]|t|r type args]; cbn [step] in Hstep; try done.
      - injection Hstep as <-.
        destruct (start_uninitialized q c Hq) as (? & ? & Hm & _).
        rewrite Hm. cbn [is_call]. split_and!; [done..|lia].
      - pose proof (emitter_step q m q1 Hstep) as (out & Hexec & Hp & Hf & _).
        unfold _getEmitter in Hexec. rewrite Hq in Hexec.
        apply exec_buffer in Hexec as [? ?]; [|done].
        cbn [is_call]. split_and!; [congruence|done|done|lia].
      - destruct (tasks q !! t) as [[c [|failure]]|]; try done.
        cbn in Hstep. injection Hstep as <-. cbn. split_and!; [done..|lia].
      - destruct (tasks q !! t) as [[c [|failure]]|]; try done.
        injection Hstep as <-. cbn. split_and!; [done..|lia]. }
    destruct (IH q1 Hq1 Hinv1 Hrun) as (Hp & Hr & Hf).
    split_and!; [done|congruence|].
    rewrite Hf, Hf1, filter_cons.
    destruct (is_call a); [rewrite decide_True by done|rewrite decide_False by done];
      cbn [length]; lia.
Qed.

Lemma nothing_touched_before_construction_witness :
  let rs := [mkEmitter [("block", [Callback 9])] (Some 3%Z)] in
  let tr := [Emitter (Once "block" 1); Call (Request 7); Emitter (Emit "block" 5);
             FactorySettles 0 (inr 4); Call (Send "eth_call" 8); Continue 0] in
  let p := mkProvider None
             (mkHeap create rs {[0]} 1
                [Invoked 1 (Some 0) 5; Rejected 0 (FactoryFailure 4)])
             2 {[1 := (Send "eth_call" 8, AwaitingFactory)]} 2 in
  provider p = None ∧ resources (mem p) = rs ∧
  factoryCalls p = length (filter (λ a, is_call a = true) tr).
Proof.
  apply (nothing_touched_before_construction
           [mkEmitter [("block", [Callback 9])] (Some 3%Z)]
           [Emitter (Once "block" 1); Call (Request 7); Emitter (Emit "block" 5);
            FactorySettles 0 (inr 4); Call (Send "eth_call" 8); Continue 0]).
  - reflexivity.
  - repeat constructor.
Defined.

(** ** Fire-once listeners through the class *)

Section OnceThroughClass.
Implicit Types (p : LazyInitializationProvider) (h : heap) (e : emitter_ref) (f W : fn).

Lemma sublist_filter_mono {A} (P : A → Prop) `{!∀ x, Decision (P x)} (l1 l2 : list A) :
  l1 `sublist_of` l2 → filter P l1 `sublist_of` filter P l2.
Proof.
  induction 1 as [|x l1 l2 _ IH|x l1 l2 _ IH]; [done|..]; rewrite !filter_cons.
  - destruct (decide (P x)); [by apply sublist_skip|done].
  - destruct (decide (P x)); [by apply sublist_cons|done].
Qed.

(** Calling listeners only ever shortens listener lists. *)
Lemma remove_at_shrinks h e type f h' e' type' :
  remove_at h e type f = Some h' →
  listeners_of h' e' type' `sublist_of` listeners_of h e' type'.
Proof.
  intros (E & E' & HE & Hrm & ->)%remove_at_Some. unfold listeners_of.
  destruct (decide (e = e')) as [<-|Hne]; [|by rewrite deref_assign_ne].
  rewrite deref_assign_eq by eauto. rewrite HE. cbn [from_option].
  apply removeListener_Some in Hrm as [->|(fs & Hfs & ->)]; [done|].
  rewrite handlers_store. destruct (decide _) as [->|]; [|done].
  by eapply remove_last_sublist.
Qed.

Lemma invoke_shrinks args h f h' e' type' :
  invoke args h f = Some h' →
  listeners_of h' e' type' `sublist_of` listeners_of h e' type'.
Proof.
  destruct f as [c|w target type c]; cbn [invoke]; intros Hinv.
  - by injection Hinv as <-.
  - destruct (decide (w ∈ fired h)); [by injection Hinv as <-|].
    destruct (remove_at h target type _) as [h1|] eqn:Hrm; [|done].
    cbn in Hinv. injection Hinv as <-.
    by apply (remove_at_shrinks _ _ _ _ _ e' type') in Hrm.
Qed.

Lemma invoke_all_shrinks args h fs h' e' type' :
  invoke_all args h fs = Some h' →
  listeners_of h' e' type' `sublist_of` listeners_of h e' type'.
Proof.
  revert h. induction fs as [|f rest IH]; intros h Hall; cbn [invoke_all] in Hall.
  - by injection Hall as <-.
  - destruct (invoke args h f) as [h1|] eqn:Hinv; [|done].
    cbn [mbind option_bind] in Hall.
    etrans; [by apply IH|by eapply invoke_shrinks].
Qed.

(** Removing a once wrapper removes that wrapper and nothing else. *)
Lemma remove_last_wrapper w target type c fs fs' :
  remove_last (OnceWrapper w target type c) fs = Some fs' →
  fs ≡ₚ OnceWrapper w target type c :: fs'.
Proof.
  intros Hrm. apply remove_last_Permutation; [done|].
  intros g _. unfold matches. destruct g; cbn.
  - rewrite orb_false_r. by intros ?%bool_decide_eq_true.
  - rewrite (bool_decide_false (_ = Callback _)) by done.
    rewrite orb_false_r. by intros ?%bool_decide_eq_true.
Qed.

Lemma invoke_all_consumes args h fs h' w e type c :
  let W := OnceWrapper w e type c in
  invoke_all args h fs = Some h' → W ∈ fs → w ∉ fired h →
  (∀ f, f ∈ fs → f = W ∨ numbered_below w f) →
  (length (filter (λ g, g = W) (listeners_of h e type)) ≤ 1)%nat →
  W ∉ listeners_of h' e type.
Proof.
  intros W. revert h.
  induction fs as [|f rest IH]; intros h Hall Hin Hfired Hfs Hocc;
    [by apply elem_of_nil in Hin|].
  cbn [invoke_all] in Hall.
  destruct (invoke args h f) as [h1|] eqn:Hinv; [|done].
  cbn [mbind option_bind] in Hall.
  destruct (decide (f = W)) as [->|Hne].
  - (* the wrapper itself runs *)
    intros Hin'.
    pose proof (elem_of_sublist _ _ _ Hin' (invoke_all_shrinks _ _ _ _ e type Hall))
      as Hin1.
    clear Hin'. unfold W in Hinv. cbn [invoke] in Hinv.
    rewrite decide_False in Hinv by done.
    destruct (remove_at h e type _) as [h2|] eqn:Hrm; [|done].
    cbn in Hinv. injection Hinv as <-.
    change (listeners_of (record (set_fired h2 w) _) e type)
      with (listeners_of h2 e type) in Hin1.
    apply remove_at_Some in Hrm as (E & E' & HE & Hrm & ->).
    unfold listeners_of in Hin1, Hocc. rewrite HE in Hocc. cbn [from_option] in Hocc.
    rewrite deref_assign_eq in Hin1 by eauto. cbn [from_option] in Hin1.
    unfold Events.removeListener in Hrm.
    destruct (remove_last _ (handlers type E)) as [fs'|] eqn:Hfs'.
    + destruct (has_listeners _ _); [done|]. injection Hrm as <-.
      rewrite handlers_store_eq in Hin1.
      apply remove_last_wrapper in Hfs'. rewrite Hfs' in Hocc.
      rewrite filter_cons, decide_True in Hocc by done. cbn [length] in Hocc.
      assert (filter (λ g, g = W) fs' = []) as Hnil.
      { destruct (filter _ fs'); [done|]. cbn [length] in Hocc. lia. }
      by apply (filter_nil_not_elem_of _ _ W Hnil).
    + injection Hrm as <-.
      by apply (remove_last_None _ _ Hin1).
  - (* another listener runs first *)
    apply elem_of_cons in Hin as [Heq|Hin]; [by destruct Hne|].
    apply (IH h1 Hall Hin).
    + destruct (Hfs f) as [?|Hbelow]; [apply list_elem_of_here|done|].
      destruct f as [c'|w' target' type' c']; cbn [invoke] in Hinv.
      * by injection Hinv as <-.
      * destruct (decide (w' ∈ fired h)); [by injection Hinv as <-|].
        destruct (remove_at h target' type' _) as [h2|] eqn:Hrm; [|done].
        cbn in Hinv. injection Hinv as <-. cbn.
        apply remove_at_changed in Hrm as (-> & _).
        rewrite elem_of_union, elem_of_singleton.
        unfold numbered_below in Hbelow. cbn in Hbelow. intros [->|?]; [lia|done].
    + intros g Hg. apply Hfs. by apply list_elem_of_further.
    + etrans; [|exact Hocc]. apply sublist_length, sublist_filter_mono.
      by eapply invoke_shrinks.
Qed.

Lemma filter_absent W (fs : list fn) : W ∉ fs → filter (λ g, g = W) fs = [].
Proof.
  induction fs as [|g rest IH]; [done|].
  intros [Hne Hnin]%not_elem_of_cons. rewrite filter_cons, decide_False by done.
  by apply IH.
Qed.
End OnceThroughClass.

(** X12: [once] (or [prependOnceListener]) and then [emit], both through
    the class and with no construction in between, behave as on a plain
    emitter, with a provider or without: the event runs the listener once
    through its new wrapper, and afterwards the instance no longer lists the
    wrapper for that event. *)
Theorem once_then_emit_consumes
    (p : LazyInitializationProvider) (type : event) (l : nat) (prepend : bool)
    (args : nat) (p2 : LazyInitializationProvider) :
  reachable p →
  let m := if prepend then PrependOnceListener type l else Once type l in
  let w := wrappers (mem p) in
  let e := _getEmitter p in
  run p [Emitter m; Emitter (Emit type args)] = Some p2 →
  deliveries w (log (mem p)) = 0 ∧
  deliveries w (log (mem p2)) = 1 ∧
  _getEmitter p2 = e ∧
  OnceWrapper w e type l ∉ listeners_of (mem p2) e type.
Proof.
  intros Hreach m w e Hrun.
  pose proof (reachable_run _ _ _ Hreach Hrun) as Hreach2.
  change (run p ([Emitter m] ++ [Emitter (Emit type args)]) = Some p2) in Hrun.
  rewrite run_app, run_one in Hrun.
  destruct (step p (Emitter m)) as [p1|] eqn:Hstep1; [|done].
  cbn [mbind option_bind] in Hrun. rewrite run_one in Hrun.
  assert (reachable p1) as Hreach1.
  { apply (reachable_run p [Emitter m]); [done|by rewrite run_one]. }
  apply emitter_step in Hstep1 as (o1 & Hexec1 & Hp1 & _).
  apply emitter_step in Hrun as (o2 & Hexec2 & Hp2 & _).
  assert (_getEmitter p1 = e) as He1 by (unfold e, _getEmitter; by rewrite Hp1).
  assert (_getEmitter p2 = e) as He2 by (unfold _getEmitter in *; by rewrite Hp2).
  rewrite He1 in Hexec2. fold e in Hexec1.
  set (W := OnceWrapper w e type l).
  (* the registration *)
  assert (add_at (fresh_wrapper (mem p)) e type W prepend = Some (mem p1)) as Hadd.
  { destruct prepend; cbn [m exec] in Hexec1; by apply this_Some in Hexec1 as [? _]. }
  pose proof (add_at_elem _ _ _ _ _ _ Hadd) as HinW.
  destruct (reachable_ids p Hreach) as [Hbelow Hfired].
  assert (w ∉ fired (mem p1)) as Hw1.
  { apply add_at_changed in Hadd as (-> & _). cbn. intros Hin%Hfired. unfold w in Hin. lia. }
  apply add_at_Some in Hadd as (E & HE & _ & Hmem1). cbn [fresh_wrapper deref] in HE.
  assert (Forall (numbered_below w) (handlers type E)) as Hold.
  { apply (Hbelow e E type). by destruct e. }
  assert (W ∉ handlers type E) as HWold.
  { intros Hin. rewrite Forall_forall in Hold. apply Hold in Hin.
    unfold numbered_below, W in Hin. cbn in Hin. lia. }
  assert (listeners_of (mem p1) e type
          = if prepend then W :: handlers type E else handlers type E ++ [W]) as Hlist.
  { rewrite Hmem1. unfold listeners_of. rewrite deref_assign_eq by eauto.
    cbn [from_option]. apply handlers_store_eq. }
  assert (length (filter (λ g, g = W) (listeners_of (mem p1) e type)) ≤ 1)%nat as Hocc.
  { rewrite Hlist. destruct prepend.
    - rewrite filter_cons, decide_True by done. by rewrite filter_absent.
    - rewrite filter_app, filter_absent by done.
      rewrite filter_cons, decide_True by done. done. }
  assert (∀ f, f ∈ listeners_of (mem p1) e type → f = W ∨ numbered_below w f) as Hall.
  { intros f. rewrite Hlist. rewrite Forall_forall in Hold.
    destruct prepend.
    - intros [->|Hin]%elem_of_cons; [by left|right; by apply Hold].
    - intros [Hin|Hin]%elem_of_app; [right; by apply Hold|].
      apply list_elem_of_singleton in Hin. by left. }
  (* the event *)
  pose proof (reachable_ok _ Hreach1) as Hok1.
  pose proof (emit_at_fires _ _ _ _ _ _ _ _ _ _ Hexec2 Hok1 HinW) as Hfired2.
  cbn [exec] in Hexec2. unfold emit_at in Hexec2.
  unfold listeners_of in HinW, Hocc, Hall.
  destruct (deref (mem p1) e) as [E1|] eqn:HE1; [|done].
  cbn [mbind option_bind from_option] in Hexec2, HinW, Hocc, Hall.
  destruct (handlers type E1) as [|f fs] eqn:Hfs; [by apply elem_of_nil in HinW|].
  destruct (invoke_all args (mem p1) (f :: fs)) as [h2|] eqn:Hinv; [|done].
  cbn [mbind option_bind] in Hexec2. injection Hexec2 as Hh2 _.
  split_and!.
  - by apply next_wrapper_unused.
  - rewrite (ok_once _ (reachable_ok _ Hreach2)). by rewrite decide_True.
  - done.
  - rewrite <- Hh2.
    apply (invoke_all_consumes args (mem p1) (f :: fs) h2 w e type l); try done.
    unfold listeners_of. rewrite HE1. cbn [from_option]. by rewrite Hfs.
Qed.

Lemma once_then_emit_consumes_witness :
  let p := mkProvider (Some 0)
             (mkHeap create [mkEmitter [("block", [Callback 1])] (Some 10%Z)] ∅ 0 [])
             1 {[0 := (Request 7, AwaitingInit None)]} 1 in
  let p2 := mkProvider (Some 0)
              (mkHeap create [mkEmitter [("block", [Callback 1])] (Some 10%Z)] {[0]} 1
                 [Invoked 3 (Some 0) 5; Invoked 1 None 5])
              1 {[0 := (Request 7, AwaitingInit None)]} 1 in
  deliveries 0 (log (mem p)) = 0 ∧
  deliveries 0 (log (mem p2)) = 1 ∧
  _getEmitter p2 = Resource 0 ∧
  OnceWrapper 0 (Resource 0) "block" 3 ∉ listeners_of (mem p2) (Resource 0) "block".
Proof.
  apply (once_then_emit_consumes
           (mkProvider (Some 0)
              (mkHeap create [mkEmitter [("block", [Callback 1])] (Some 10%Z)] ∅ 0 [])
              1 {[0 := (Request 7, AwaitingInit None)]} 1) "block" 3 true 5).
  - exists [create], [Emitter (On "block" 1); Call (Request 7); FactorySettles 0 (inl 0)].
    reflexivity.
  - reflexivity.
Defined.

(** ** Fire-once listeners across construction *)

(** X13: a listener registered with [once] (or [prependOnceListener]) on
    an instance without provider gets the wrapper numbered
    [wrappers (mem p)], which is new: nothing has run through it.  Whatever
    happens afterwards, in any order, that wrapper runs the listener at most
    once.  And when a JSON-RPC call follows the registration, its factory
    promise resolves, and after any JSON-RPC calls and continuations the
    event is emitted, through the instance or by the provider itself, the
    wrapper has run the listener exactly once, however many more events
    follow. *)
Theorem once_listener_fires_once
    (p : LazyInitializationProvider) (type : event) (listener : nat) (prepend : bool) :
  reachable p → provider p = None →
  let m := if prepend then PrependOnceListener type listener else Once type listener in
  let w := wrappers (mem p) in
  deliveries w (log (mem p)) = 0 ∧
  (∀ tr p', run p (Emitter m :: tr) = Some p' →
            (deliveries w (log (mem p')) ≤ 1)%nat) ∧
  (∀ c t r rpc a args tr p',
      Forall is_rpc rpc →
      a = Emitter (Emit type args) ∨ a = ResourceEmits r type args →
      run p ([Emitter m; Call c; FactorySettles t (inl r)] ++ rpc ++ [a] ++ tr) = Some p' →
      deliveries w (log (mem p')) = 1).
Proof.
  intros Hreach Hp m w. split; [by apply next_wrapper_unused|]. split.
  - intros tr p' Hrun. apply deliveries_at_most_one. by eapply reachable_run.
  - intros c t r rpc a args tr p' Hrpc Ha Hrun.
    rewrite run_app in Hrun.
    destruct (run p [Emitter m; Call c; FactorySettles t (inl r)]) as [p3|] eqn:Hrun3;
      [|done].
    cbn [mbind option_bind] in Hrun. rewrite run_app in Hrun.
    destruct (run p3 rpc) as [p3'|] eqn:Hrun3'; [|done].
    cbn [mbind option_bind] in Hrun. rewrite run_app, run_one in Hrun.
    destruct (step p3' a) as [p4|] eqn:Hstep4; [|done].
    cbn [mbind option_bind] in Hrun.
    pose proof (reachable_run _ _ _ Hreach Hrun3) as Hreach3.
    pose proof (reachable_run _ _ _ Hreach3 Hrun3') as Hreach3'.
    assert (reachable p4) as Hreach4.
    { apply (reachable_run p3' [a]); [done|by rewrite run_one]. }
    (* it is enough that the wrapper has fired once the event was emitted *)
    enough (w ∈ fired (mem p4)) as Hfired.
    { destruct (run_ok _ _ _ Hrun (reachable_ok _ Hreach4)) as [Hok' Hsub].
      rewrite (ok_once _ Hok'). rewrite decide_True; [done|]. by apply Hsub. }
    (* registration *)
    change (run p ([Emitter m] ++ [Call c] ++ [FactorySettles t (inl r)]) = Some p3)
      in Hrun3.
    rewrite run_app, run_one in Hrun3.
    destruct (step p (Emitter m)) as [p1|] eqn:Hstep1; [|done].
    cbn [mbind option_bind] in Hrun3.
    assert (reachable p1 ∧ provider p1 = None ∧
            OnceWrapper w Buffer type listener ∈ listeners_of (mem p1) Buffer type)
      as (Hreach1 & Hp1 & Hin1).
    { split; [apply (reachable_run p [Emitter m]); [exact Hreach|by rewrite run_one]|].
      apply emitter_step in Hstep1 as (out & Hexec & Hp1 & _).
      split; [congruence|]. unfold _getEmitter in Hexec. rewrite Hp in Hexec.
      destruct prepend; cbn [exec m] in Hexec;
        apply this_Some in Hexec as [Hadd _]; by apply add_at_elem in Hadd. }
    (* the call *)
    rewrite run_app, run_one in Hrun3. cbn [step mbind option_bind] in Hrun3.
    destruct (start_uninitialized p1 c Hp1) as (_ & _ & Hm2 & _).
    assert (reachable (start p1 c)) as Hreach2.
    { by apply (reachable_run p1 [Call c]). }
    (* construction, and the calls after it *)
    rewrite run_one in Hrun3.
    apply settle_resolved in Hrun3
      as (c' & _ & _ & Hp3 & _ & _ & _ & _ & Hls); [|by apply reachable_ok].
    assert (OnceWrapper w Buffer type listener ∈ listeners_of (mem p3') (Resource r) type)
      as Hin3.
    { rewrite (rpc_run_listeners p3 rpc p3' _ _ Hrpc Hrun3'), Hls, Hm2.
      apply elem_of_app. by right. }
    destruct (rpc_run _ _ _ Hrpc Hrun3') as (Hp3' & _). rewrite Hp3 in Hp3'.
    (* the event *)
    destruct Ha as [-> | ->].
    + apply emitter_step in Hstep4 as (out & Hexec & _).
      unfold _getEmitter in Hexec. rewrite Hp3' in Hexec. cbn [exec] in Hexec.
      eapply emit_at_fires; [exact Hexec|by apply reachable_ok|exact Hin3].
    + cbn [step] in Hstep4.
      destruct (emit_at (mem p3') (Resource r) type args) as [[h out]|] eqn:Hemit; [|done].
      cbn in Hstep4. injection Hstep4 as <-. cbn.
      eapply emit_at_fires; [exact Hemit|by apply reachable_ok|exact Hin3].
Qed.

Lemma once_listener_fires_once_witness :
  deliveries 0 (log (mem (init [create]))) = 0 ∧
  (∀ tr p', run (init [create]) (Emitter (Once "block" 3) :: tr) = Some p' →
            (deliveries 0 (log (mem p')) ≤ 1)%nat) ∧
  (∀ c t r rpc a args tr p',
      Forall is_rpc rpc →
      a = Emitter (Emit "block" args) ∨ a = ResourceEmits r "block" args →
      run (init [create])
          ([Emitter (Once "block" 3); Call c; FactorySettles t (inl r)] ++ rpc ++ [a] ++ tr)
      = Some p' →
      deliveries 0 (log (mem p')) = 1).
Proof.
  apply (once_listener_fires_once (init [create]) "block" 3 false).
  - exists [create], []. reflexivity.
  - reflexivity.
Defined.

(** A run behind the witness: the request is forwarded, then the event is
    emitted three times, twice through the instance and once by the
    provider. *)
Example once_listener_three_events :
  ∃ p', run (init [create])
            [Emitter (Once "block" 3); Call (Request 1); FactorySettles 0 (inl 0);
             Continue 0;
             Emitter (Emit "block" 10); ResourceEmits 0 "block" 11;
             Emitter (Emit "block" 12)] = Some p' ∧
        log (mem p') = [Forwarded 0 (Request 1); Invoked 3 (Some 0) 10] ∧
        deliveries 0 (log (mem p')) = 1.
Proof. eexists. repeat (split; [vm_compute; reflexivity|]). vm_compute; reflexivity. Qed.

(** ** The max-listeners value across construction *)

Section MaxListeners.
Implicit Types (p : LazyInitializationProvider) (h : heap) (e : emitter_ref).

Lemma invoke_max args h f h' e :
  invoke args h f = Some h' →
  _maxListeners <$> deref h' e = _maxListeners <$> deref h e.
Proof.
  destruct f as [c|w target type c]; simpl; intros Hinv.
  - injection Hinv as <-. by destruct e.
  - destruct (decide (w ∈ fired h)); [by injection Hinv as <-|].
    destruct (remove_at h target type _) as [h1|] eqn:Hrm; [|done].
    simpl in Hinv. injection Hinv as <-.
    apply remove_at_changed in Hrm as (_ & _ & _ & _ & Hmax).
    rewrite <- Hmax. by destruct e.
Qed.

Lemma invoke_all_max args h fs h' e :
  invoke_all args h fs = Some h' →
  _maxListeners <$> deref h' e = _maxListeners <$> deref h e.
Proof.
  revert h. induction fs as [|f rest IH]; intros h Hall; simpl in Hall.
  - by injection Hall as <-.
  - destruct (invoke args h f) as [h1|] eqn:Hinv; [|done]. simpl in Hall.
    rewrite (IH _ Hall). by eapply invoke_max.
Qed.

Lemma emit_at_max h e0 type args h' out e :
  emit_at h e0 type args = Some (h', out) →
  _maxListeners <$> deref h' e = _maxListeners <$> deref h e.
Proof.
  unfold emit_at. intros Hemit.
  destruct (deref h e0) as [E|]; [|done]. cbn -[invoke_all] in Hemit.
  destruct (handlers type E) as [|f fs].
  - destruct (decide (type = "error")); by injection Hemit as <- _.
  - destruct (invoke_all args h (f :: fs)) as [h1|] eqn:Hall; [|done].
    cbn in Hemit. injection Hemit as <- _. by eapply invoke_all_max.
Qed.

(** [setMaxListeners] is the one emitter method that writes a
    max-listeners value. *)
Lemma exec_max h e0 m h' out e :
  exec h e0 m = Some (h', out) → (∀ k, m ≠ SetMaxListeners k) →
  _maxListeners <$> deref h' e = _maxListeners <$> deref h e.
Proof.
  intros Hexec Hm.
  destruct m; simpl in Hexec;
    try (apply this_Some in Hexec as [Hexec _]);
    try (by apply read_Some in Hexec as [-> _]);
    try (by apply add_at_changed in Hexec as (_ & _ & _ & _ & Hmax));
    try (by apply remove_at_changed in Hexec as (_ & _ & _ & _ & Hmax)).
  - destruct (deref h e0) as [E|] eqn:HE; [|done]. simpl in Hexec.
    unfold Events.removeAllListeners in Hexec.
    destruct (has_listeners _ _); [done|].
    simpl in Hexec. injection Hexec as <-.
    by apply (listeners_changed_assign h e0 E).
  - by destruct (Hm n).
  - by eapply emit_at_max.
Qed.

Lemma step_max p r a p' e :
  provider p = Some r → no_factory_pending p →
  (∀ k, a ≠ Emitter (SetMaxListeners k)) → step p a = Some p' →
  _maxListeners <$> deref (mem p') e = _maxListeners <$> deref (mem p) e.
Proof.
  intros Hp Hnone Ha Hstep.
  destruct a as [c|m|t result|t|r' type args]; cbn [step] in Hstep.
  - injection Hstep as <-. by destruct (start_initialized p c r Hp) as (_ & _ & -> & _).
  - apply emitter_step in Hstep as (out & Hexec & _).
    eapply exec_max; [done|]. intros k ->. by destruct (Ha k).
  - destruct (tasks p !! t) as [[c [|failure]]|] eqn:Ht; try done.
    by destruct (Hnone t c).
  - destruct (tasks p !! t) as [[c [|failure]]|]; try done.
    injection Hstep as <-. by destruct e.
  - destruct (emit_at _ _ _ _) as [[h out]|] eqn:Hemit; [|done].
    cbn in Hstep. injection Hstep as <-. by eapply emit_at_max.
Qed.

(** With a provider in place and no factory call in flight, the
    max-listeners values change by [setMaxListeners] only. *)
Lemma run_max p r tr p' e :
  provider p = Some r → no_factory_pending p →
  Forall (λ a, ∀ k, a ≠ Emitter (SetMaxListeners k)) tr → run p tr = Some p' →
  _maxListeners <$> deref (mem p') e = _maxListeners <$> deref (mem p) e.
Proof.
  revert p. induction tr as [|a rest IH]; intros p Hp Hnone Htr Hrun; cbn [run] in Hrun.
  - by injection Hrun as <-.
  - apply Forall_cons in Htr as [Ha Hrest].
    destruct (step p a) as [p1|] eqn:Hstep; [|done]. cbn [mbind option_bind] in Hrun.
    destruct (settled_step _ _ _ _ Hp Hnone Hstep) as (Hp1 & _ & Hnone1).
    rewrite (IH _ Hp1 Hnone1 Hrest Hrun). by eapply step_max.
Qed.
End MaxListeners.

(** X14: used one call at a time, a max-listeners value set on the instance
    before construction is the value the instance reports after it.  No
    call is awaiting the factory; [setMaxListeners(n)] is called, then a
    JSON-RPC call is made and its factory promise resolves.  Until then no
    resource is written.  Afterwards, whatever calls, emitter methods other
    than [setMaxListeners], events and resumptions follow, the factory has
    been invoked for that call and not again, and the provider and the
    instance report [n]. *)
Theorem max_listeners_carried_over
    (p : LazyInitializationProvider) (n : Z) (c : remote_call) (r : nat)
    (tr : list action) (p' : LazyInitializationProvider) :
  reachable p → provider p = None → no_factory_pending p → (0 ≤ n)%Z →
  Forall (λ a, ∀ k, a ≠ Emitter (SetMaxListeners k)) tr →
  run p ([Emitter (SetMaxListeners n); Call c; FactorySettles (spawned p) (inl r)] ++ tr)
  = Some p' →
  (∃ p1, run p [Emitter (SetMaxListeners n); Call c] = Some p1 ∧
         provider p1 = None ∧ resources (mem p1) = resources (mem p)) ∧
  provider p' = Some r ∧ factoryCalls p' = S (factoryCalls p) ∧
  exec (mem p') (Resource r) GetMaxListeners = Some (mem p', Returned (VNum n)) ∧
  getMaxListeners p' = Some (p', Returned (VNum n)).
Proof.
  intros Hreach Hp Hnone Hn Htr Hrun.
  change (run p ([Emitter (SetMaxListeners n); Call c]
                 ++ [FactorySettles (spawned p) (inl r)] ++ tr) = Some p') in Hrun.
  rewrite run_app in Hrun.
  destruct (run p [Emitter (SetMaxListeners n); Call c]) as [p1|] eqn:Hrun1; [|done].
  pose proof (reachable_run _ _ _ Hreach Hrun1) as Hreach1.
  cbn [mbind option_bind] in Hrun. rewrite run_app, run_one in Hrun.
  destruct (step p1 (FactorySettles (spawned p) (inl r))) as [p2|] eqn:Hstep; [|done].
  cbn [mbind option_bind] in Hrun.
  (* the first two actions *)
  cbn in Hrun1. unfold via_emitter, _getEmitter in Hrun1. rewrite Hp in Hrun1.
  cbn in Hrun1. unfold Events.setMaxListeners in Hrun1.
  rewrite decide_False in Hrun1 by lia. cbn in Hrun1.
  injection Hrun1 as <-.
  match type of Hstep with context [start ?q c] =>
    destruct (start_uninitialized q c Hp) as (Hp1 & Hf1 & Hm1 & _ & Ht1) end.
  (* construction *)
  apply settle_resolved in Hstep
    as (c' & _ & Ht2 & Hp2 & Hf2 & _ & _ & (R' & HR' & Hmax) & _); [|by apply reachable_ok].
  rewrite Hm1 in Hmax. cbn in Hmax.
  assert (no_factory_pending p2) as Hnone2.
  { intros t0 c0. rewrite Ht2, Ht1. cbn [tasks].
    destruct (decide (spawned p = t0)) as [<-|Hne].
    - rewrite lookup_insert_eq. congruence.
    - rewrite !lookup_insert_ne by done. apply Hnone. }
  (* what follows *)
  destruct (settled_run _ _ _ _ Hp2 Hnone2 Hrun) as [Hp' Hf'].
  pose proof (run_max _ _ _ _ (Resource r) Hp2 Hnone2 Htr Hrun) as Hkept.
  cbn [deref] in Hkept. rewrite HR' in Hkept. cbn [fmap option_fmap option_map] in Hkept.
  destruct (resources (mem p') !! r) as [R''|] eqn:HR''; [|done].
  cbn in Hkept. injection Hkept as Hkept. rewrite Hmax in Hkept.
  assert (exec (mem p') (Resource r) GetMaxListeners
          = Some (mem p', Returned (VNum n))) as Hget.
  { cbn. unfold read. cbn. rewrite HR''. cbn.
    unfold Events.getMaxListeners. by rewrite Hkept. }
  split_and!; [|done| |done|].
  - eexists. split_and!; [done|done|]. by rewrite Hm1.
  - rewrite Hf', Hf2, Hf1. done.
  - unfold getMaxListeners, via_emitter, _getEmitter. rewrite Hp', Hget. cbn.
    by destruct p'.
Qed.

Lemma max_listeners_carried_over_witness :
  let p' := mkProvider (Some 0)
              (mkHeap (mkEmitter [] (Some 25%Z))
                 [mkEmitter [("block", [Callback 4])] (Some 25%Z)] ∅ 0
                 [Forwarded 0 (Request 7); Forwarded 0 (Request 8)])
              1 ∅ 2 in
  (∃ p1, run (init [create]) [Emitter (SetMaxListeners 25); Call (Request 7)] = Some p1 ∧
         provider p1 = None ∧ resources (mem p1) = resources (mem (init [create]))) ∧
  provider p' = Some 0 ∧ factoryCalls p' = S (factoryCalls (init [create])) ∧
  exec (mem p') (Resource 0) GetMaxListeners = Some (mem p', Returned (VNum 25)) ∧
  getMaxListeners p' = Some (p', Returned (VNum 25)).
Proof.
  apply (max_listeners_carried_over (init [create]) 25 (Request 7) 0
           [Continue 0; Emitter (On "block" 4); Call (Request 8); Continue 1]).
  - exists [create], []. reflexivity.
  - reflexivity.
  - intros t c. cbn [init tasks]. by rewrite lookup_empty.
  - lia.
  - repeat constructor; intros k; discriminate.
  - reflexivity.
Defined.
